(** * detect_eucalyptus: distribution metrics, coverage and projection

    A shallow embedding of [detect_eucalyptus.py].  The script detects
    eucalyptus sprouts in an orthophoto, turns the pixel boxes into
    georeferenced rectangles, measures their areas in a UTM projection and
    writes a metrics record (detections per hectare, standard deviation,
    Gini coefficient, PV50).

    Number model.  The script computes on IEEE binary64 values.  The module
    [Exact] reads every float operation as the exact operation on rationals
    ([Q]); a division whose divisor is zero has no finite value in numpy
    (it yields [nan] or [inf] and a warning) and is [None] there.  The
    module [Binary64] states the two statistics on the kernel's binary64
    numbers; it is evaluated on the arrays quoted by the specification and
    on arrays where rounding moves the result away from the exact one.

    The module [Cli] adds the rest of [main]: the validation of the
    arguments, the calls to the detector and to rasterio, and the writes. *)

From Stdlib Require Import List ZArith QArith Qabs Qminmax Lia Lqa Bool.
From Stdlib Require Import Permutation Sorted.
From Stdlib Require Import Floats.PrimFloat.
From Corelib Require Import Uint63Axioms.
From Stdlib Require String Ascii.
Import ListNotations.

(** ** numpy array primitives that do not depend on the element type *)

Section Arrays.
Context {A : Type}.
Variable leb : A -> A -> bool.

(** [np.sort(a)]: the elements of [a] in ascending order.  numpy's
    result on numbers is fixed by that contract; it is computed here by
    insertion. *)
Fixpoint insert (x : A) (l : list A) : list A :=
  match l with
  | [] => [x]
  | y :: t => if leb x y then x :: y :: t else y :: insert x t
  end.

Definition np_sort (l : list A) : list A := fold_right insert [] l.
End Arrays.

(** An element-wise binary operation on two arrays of the same length
    ([u * v] in numpy). *)
Fixpoint map2 {A B C : Type} (f : A -> B -> C) (u : list A) (v : list B) : list C :=
  match u, v with
  | x :: u', y :: v' => f x y :: map2 f u' v'
  | _, _ => []
  end.

(** [np.arange(lo, lo + len)] on integers. *)
Definition arange (lo : Z) (len : nat) : list Z :=
  map (fun k => (lo + Z.of_nat k)%Z) (seq 0 len).

(** ** Exact arithmetic *)

Module Exact.

Open Scope Q_scope.

(** A float result: [Some q] is the finite value [q], [None] is numpy's
    [nan]/[inf] outcome of a division by zero. *)
Definition fdiv (a b : Q) : option Q :=
  if Qeq_bool b 0 then None else Some (a / b).

(** Equality of float results, up to the representation of a rational. *)
Definition res_eq (r s : option Q) : Prop :=
  match r, s with
  | Some x, Some y => x == y
  | None, None => True
  | _, _ => False
  end.

Infix "=?=" := res_eq (at level 70, no associativity).

(** [np.sum(a)]. *)
Definition np_sum (l : list Q) : Q := fold_left Qplus l 0.

Definition sort_areas : list Q -> list Q := np_sort Qle_bool.

(** [calculate_gini(areas)] *)
Definition calculate_gini (areas : list Q) : option Q :=
  let sorted_areas := sort_areas areas in
  let n := Z.of_nat (length areas) in
  let index := arange 1 (length areas) in
  fdiv (np_sum (map2 (fun i a => inject_Z (2 * i - n - 1) * a) index sorted_areas))
       (inject_Z n * np_sum sorted_areas).

(** [calculate_pv50(areas)] *)
Definition calculate_pv50 (areas : list Q) : option Q :=
  let sorted_areas := sort_areas areas in
  let half_n := (length sorted_areas / 2)%nat in
  let sum_smallest_50 := np_sum (firstn half_n sorted_areas) in
  let total_sum := np_sum sorted_areas in
  option_map (fun r => r * 100) (fdiv sum_smallest_50 total_sum).

End Exact.

(** ** The same statistics on binary64 numbers

    Every operation is the IEEE operation of the kernel's floats, taken in
    the order in which numpy performs it. *)

Module Binary64.

Open Scope float_scope.

(** An int64 value converted to float64 (exact below 2^53). *)
Definition of_int (z : Z) : float :=
  match z with
  | Z0 => 0
  | Zpos _ => of_uint63 (Uint63Axioms.of_Z z)
  | Zneg p => - of_uint63 (Uint63Axioms.of_Z (Zpos p))
  end.

(** [np.sum(a)] on an array of fewer than eight numbers: numpy adds them
    from left to right. *)
Definition np_sum (l : list float) : float := fold_left PrimFloat.add l 0.

Definition sort_areas : list float -> list float := np_sort PrimFloat.leb.

(** [calculate_gini(areas)] *)
Definition calculate_gini (areas : list float) : float :=
  let sorted_areas := sort_areas areas in
  let n := Z.of_nat (length areas) in
  let index := arange 1 (length areas) in
  np_sum (map2 (fun i a => of_int (2 * i - n - 1) * a) index sorted_areas)
  / (of_int n * np_sum sorted_areas).

(** [calculate_pv50(areas)] *)
Definition calculate_pv50 (areas : list float) : float :=
  let sorted_areas := sort_areas areas in
  let half_n := (length sorted_areas / 2)%nat in
  let sum_smallest_50 := np_sum (firstn half_n sorted_areas) in
  let total_sum := np_sum sorted_areas in
  (sum_smallest_50 / total_sum) * 100.

End Binary64.

(** ** Raster samples and the coverage estimate *)

Module Raster.

Open Scope Z_scope.

(** The sample type of the raster ([src.read] returns the file's own
    dtype): an unsigned or signed integer of [bits] bits. *)
Inductive dtype : Type :=
| UInt (bits : Z)
| SInt (bits : Z).

Definition uint8 : dtype := UInt 8.
Definition uint16 : dtype := UInt 16.
Definition int16 : dtype := SInt 16.

(** The value a sample of type [dt] holds after an arithmetic result [z]:
    numpy's integer arrays wrap around. *)
Definition wrap (dt : dtype) (z : Z) : Z :=
  match dt with
  | UInt w => z mod 2 ^ w
  | SInt w => (z + 2 ^ (w - 1)) mod 2 ^ w - 2 ^ (w - 1)
  end.

(** A value that the sample type can hold. *)
Definition in_range (dt : dtype) (z : Z) : Prop :=
  match dt with
  | UInt w => 0 <= z < 2 ^ w
  | SInt w => - 2 ^ (w - 1) <= z < 2 ^ (w - 1)
  end.

(** One pixel of the H x W x 3 array: its three band samples. *)
Definition pixel : Type := (Z * Z * Z)%type.
Definition image : Type := list (list pixel).

(** [img[:,:,0] + img[:,:,1] + img[:,:,2]] at one pixel; each [+] is an
    addition of two arrays of type [dt]. *)
Definition band_sum (dt : dtype) (p : pixel) : Z :=
  let '(b0, b1, b2) := p in wrap dt (wrap dt (b0 + b1) + b2).

(** [np.where(s > 0, 1, 0)] at one pixel. *)
Definition valid_flag (dt : dtype) (p : pixel) : Z :=
  if 0 <? band_sum dt p then 1 else 0.

(** [np.sum] of an integer array (int64; no overflow at raster sizes). *)
Definition np_sum_int (l : list Z) : Z := fold_left Z.add l 0.

Definition valid_count (dt : dtype) (img : image) : Z :=
  np_sum_int (map (valid_flag dt) (concat img)).

(** Line 113 of the script. *)
Definition total_area_ha (dt : dtype) (img : image) (gsd : Q) : Q :=
  (inject_Z (valid_count dt img) * (gsd * gsd) / 10000)%Q.

(** The reading of the specification: a pixel is valid when the sum of
    its three band values is greater than zero. *)
Definition spec_valid (p : pixel) : bool :=
  let '(b0, b1, b2) := p in 0 <? b0 + b1 + b2.

Definition spec_valid_count (img : image) : Z :=
  Z.of_nat (length (filter spec_valid (concat img))).

Definition spec_total_area_ha (img : image) (gsd : Q) : Q :=
  (inject_Z (spec_valid_count img) * gsd ^ 2 / 10000)%Q.

(** A pixel whose partial band sums stay inside the sample type. *)
Definition no_wrap (dt : dtype) (p : pixel) : Prop :=
  let '(b0, b1, b2) := p in in_range dt (b0 + b1) /\ in_range dt (b0 + b1 + b2).

End Raster.

(** ** Geometry: affine transform, rectangles, planar area *)

Module Geometry.

Open Scope Q_scope.

Definition point : Type := (Q * Q)%type.

(** rasterio's [Affine(a, b, c, d, e, f)]: the pixel (col, row) goes to
    (a*col + b*row + c, d*col + e*row + f). *)
Record Affine : Type := mkAffine
  { aff_a : Q; aff_b : Q; aff_c : Q; aff_d : Q; aff_e : Q; aff_f : Q }.

(** [transform * (x, y)], in exact arithmetic.  The script evaluates it in
    the precision of the box coordinates, which the detector returns as
    float32 (and which stay float32 under NumPy 2): at UTM magnitudes the
    real coordinates are those of this definition rounded to a grid of up
    to half a metre.  Statements about [project] hold of the corners
    computed here. *)
Definition apply (transform : Affine) (p : point) : point :=
  let '(x, y) := p in
  (aff_a transform * x + aff_b transform * y + aff_c transform,
   aff_d transform * x + aff_e transform * y + aff_f transform).

(** A polygon without holes, as the coordinates of its closed exterior
    ring. *)
Definition polygon : Type := list point.

(** shapely's [box(minx, miny, maxx, maxy)]: the ring starts at
    (maxx, miny) and runs through (maxx, maxy), (minx, maxy), (minx, miny);
    the four arguments are used as they are given. *)
Definition box (minx miny maxx maxy : Q) : polygon :=
  [ (maxx, miny); (maxx, maxy); (minx, maxy); (minx, miny); (maxx, miny) ].

(** A pixel box [x1, y1, x2, y2] of the detector. *)
Definition bbox : Type := (Q * Q * Q * Q)%type.

(** Lines 81-89: the body of the loop over the boxes. *)
Definition project (transform : Affine) (b : bbox) : polygon :=
  let '(x1, y1, x2, y2) := b in
  let '(lon_min, lat_max) := apply transform (x1, y1) in
  let '(lon_max, lat_min) := apply transform (x2, y2) in
  box lon_min lat_min lon_max lat_max.

(** The rectangle the specification asks for: built from the minima and
    the maxima, per axis, of the two transformed corners. *)
Definition project_minmax (transform : Affine) (b : bbox) : polygon :=
  let '(x1, y1, x2, y2) := b in
  let '(lon_min, lat_max) := apply transform (x1, y1) in
  let '(lon_max, lat_min) := apply transform (x2, y2) in
  box (Qmin lon_min lon_max) (Qmin lat_min lat_max)
      (Qmax lon_min lon_max) (Qmax lat_min lat_max).

Definition point_eq (p q : point) : Prop :=
  fst p == fst q /\ snd p == snd q.

(** Two rings with the same coordinates in the same order. *)
Definition ring_eq (r s : polygon) : Prop := Forall2 point_eq r s.

(** Two rings through the same set of points. *)
Definition same_vertices (r s : polygon) : Prop :=
  forall p, Exists (point_eq p) r <-> Exists (point_eq p) s.

(** shapely's [bounds]: (minx, miny, maxx, maxy) over the coordinates. *)
Definition bounds (r : polygon) : option (Q * Q * Q * Q) :=
  match r with
  | [] => None
  | (x, y) :: t =>
      Some (fold_left (fun acc p =>
                         let '(x0, y0, x1, y1) := acc in
                         (Qmin x0 (fst p), Qmin y0 (snd p),
                          Qmax x1 (fst p), Qmax y1 (snd p)))
                      t (x, y, x, y))
  end.

(** Twice the signed area of a closed ring (shoelace sum). *)
Fixpoint shoelace (r : polygon) : Q :=
  match r with
  | (x0, y0) :: (((x1, y1) :: _) as t) => (x0 * y1 - x1 * y0) + shoelace t
  | _ => 0
  end.

(** shapely's [area]: never negative, whatever the orientation. *)
Definition polygon_area (r : polygon) : Q := Qabs (shoelace r) / 2.

End Geometry.

(** ** The pipeline: area normalisation and the metrics record *)

Module Pipeline.

Import Exact Geometry.
Open Scope Q_scope.

(** A coordinate reference system, by its EPSG code. *)
Definition crs : Type := Z.

(** One output of the detector: a pixel box, a class and a confidence. *)
Record Detection : Type := mkDetection
  { det_box : bbox; det_class : Z; det_conf : Q }.

(** A row of the GeoDataFrame built on line 98. *)
Record GeoDetection : Type := mkGeoDetection
  { geometry : polygon; class : Z; confidence : Q }.

(** A row once the ['area'] column exists (line 107). *)
Record AreaDetection : Type := mkAreaDetection
  { row : GeoDetection; area : Q }.

(** *** Calls into geopandas, with a log of the calls made *)

Inductive event : Type :=
| EstimateUtmCrs (rows : nat)            (* gdf.estimate_utm_crs() *)
| ToCrs (target : crs) (rows : nat)      (* gdf.to_crs(target) *)
| GeometryArea (rows : nat).             (* gdf.geometry.area *)

Inductive outcome (A : Type) : Type :=
| Ok (a : A)
| Raised.

Arguments Ok {A} a.
Arguments Raised {A}.

(** A computation that may raise and that extends the log of calls. *)
Definition M (A : Type) : Type := list event -> outcome A * list event.

Definition ret {A : Type} (a : A) : M A := fun log => (Ok a, log).

Definition bind {A B : Type} (m : M A) (k : A -> M B) : M B :=
  fun log =>
    match m log with
    | (Ok a, log') => k a log'
    | (Raised, log') => (Raised, log')
    end.

Definition call (e : event) : M unit := fun log => (Ok tt, log ++ [e]).

Definition raise {A : Type} : M A := fun log => (Raised, log).

Notation "x <- m ;; k" := (bind m (fun x => k))
  (at level 100, m at next level, right associativity).

(** [gdf[mask]]: the rows whose flag is set, in order. *)
Fixpoint select {A : Type} (l : list A) (mask : list bool) : list A :=
  match l, mask with
  | x :: l', b :: mask' => if b then x :: select l' mask' else select l' mask'
  | _, _ => []
  end.

Definition Qlt_bool (x y : Q) : bool := negb (Qle_bool y x).

Section Collaborators.

(** geopandas' UTM estimate from the geometries; [None] when it raises. *)
Variable estimate_utm_crs : list polygon -> option crs.
(** pyproj's map from the raster's CRS to [target], on one coordinate. *)
Variable transform_point : crs -> point -> point.
(** The square root used by pandas' [std]. *)
Variable sqrt : Q -> Q.

Definition do_estimate_utm_crs (gdf : list GeoDetection) : M crs :=
  _ <- call (EstimateUtmCrs (length gdf)) ;;
  match estimate_utm_crs (map geometry gdf) with
  | Some utm => ret utm
  | None => raise
  end.

Definition to_crs (target : crs) (gdf : list GeoDetection) : M (list GeoDetection) :=
  _ <- call (ToCrs target (length gdf)) ;;
  ret (map (fun r => mkGeoDetection (map (transform_point target) (geometry r))
                                    (class r) (confidence r)) gdf).

Definition geometry_area (gdf : list GeoDetection) : M (list Q) :=
  _ <- call (GeometryArea (length gdf)) ;;
  ret (map (fun r => polygon_area (geometry r)) gdf).

(** Lines 103-110. *)
Definition area_normalizer (gdf : list GeoDetection) : M (list AreaDetection) :=
  estimated_utm <- do_estimate_utm_crs gdf ;;
  gdf <- to_crs estimated_utm gdf ;;
  areas <- geometry_area gdf ;;
  let gdf := map2 mkAreaDetection gdf areas in
  mask <- geometry_area (map row gdf) ;;
  ret (select gdf (map (Qlt_bool 1) mask)).

(** pandas' [Series.mean()], [Series.var(ddof)] and [Series.std()]
    (sample statistics: [ddof = 1] unless given). *)
Definition series_mean (s : list Q) : option Q :=
  fdiv (np_sum s) (inject_Z (Z.of_nat (length s))).

Definition series_var (ddof : Z) (s : list Q) : option Q :=
  match series_mean s with
  | Some m => fdiv (np_sum (map (fun x => (x - m) * (x - m)) s))
                   (inject_Z (Z.of_nat (length s) - ddof))
  | None => None
  end.

Definition series_std (s : list Q) : option Q :=
  option_map sqrt (series_var 1 s).

(** Line 117. *)
Definition calc_detections_per_ha (total_detections : Z) (total_area_ha : Q) : option Q :=
  if Qlt_bool 0 total_area_ha
  then fdiv (inject_Z total_detections) total_area_ha
  else Some 0.

(** Line 120. *)
Definition calc_desvio_padrao (areas : list Q) : option Q :=
  if (1 <? length areas)%nat then series_std areas else Some 0.

(** The record written to [metrics.json]. *)
Record Metrics : Type := mkMetrics
  { total_detections : Z;
    total_area_ha : Q;
    detections_per_ha : option Q;
    desvio_padrao : option Q;
    gini : option Q;
    pv50 : option Q }.

(** Lines 77-98: the rows of the GeoDataFrame, one per detection. *)
Definition vectorize (transform : Affine) (detections : list Detection) : list GeoDetection :=
  map (fun d => mkGeoDetection (project transform (det_box d)) (det_class d) (det_conf d))
      detections.

(** Lines 77-129 of [main]: from the detector's output and the raster
    to the surviving rows and the metrics record. *)
Definition main (dt : Raster.dtype) (img : Raster.image) (transform : Affine)
           (detections : list Detection) (gsd : Q) : M (list AreaDetection * Metrics) :=
  let gdf := vectorize transform detections in
  gdf <- area_normalizer gdf ;;
  let total_area_ha := Raster.total_area_ha dt img gsd in
  let total_detections := Z.of_nat (length gdf) in
  let total_detections_per_ha := calc_detections_per_ha total_detections total_area_ha in
  let desvio_padrao := calc_desvio_padrao (map area gdf) in
  ret (gdf, mkMetrics total_detections total_area_ha total_detections_per_ha
                      desvio_padrao
                      (calculate_gini (map area gdf))
                      (calculate_pv50 (map area gdf))).

End Collaborators.

(** Running a computation from the empty log. *)
Definition run {A : Type} (m : M A) : outcome A * list event := m [].

End Pipeline.

(** ** The formulas of the specification *)

Module Spec.

Import Exact.
Open Scope Q_scope.

(** The sum of [f i] for [i] from [lo] to [lo + len - 1]. *)
Fixpoint big_sum (f : nat -> Q) (lo len : nat) : Q :=
  match len with
  | O => 0
  | S len' => f lo + big_sum f (S lo) len'
  end.

(** [a_i], counting from 1. *)
Definition nth1 (a : list Q) (i : nat) : Q := nth (i - 1) a 0.

Definition of_nat (k : nat) : Q := inject_Z (Z.of_nat k).

(** (sum over i = 1..n of (2i - n - 1) a_i) / (n * sum of a_i) *)
Definition gini_quotient (a : list Q) : Q :=
  let n := length a in
  big_sum (fun i => (2 * of_nat i - of_nat n - 1) * nth1 a i) 1 n
  / (of_nat n * big_sum (nth1 a) 1 n).

(** 100 times the sum of the first floor(n/2) elements over the total. *)
Definition pv50_formula (a : list Q) : option Q :=
  let n := length a in
  option_map (Qmult 100) (fdiv (big_sum (nth1 a) 1 (n / 2)) (big_sum (nth1 a) 1 n)).

(** The sample variance, with the n - 1 denominator, and the sample
    standard deviation, its square root. *)
Definition sample_variance (a : list Q) : Q :=
  let n := length a in
  let mean := big_sum (nth1 a) 1 n / of_nat n in
  big_sum (fun i => (nth1 a i - mean) ^ 2) 1 n / (of_nat n - 1).

Definition sample_std (sqrt : Q -> Q) (a : list Q) : Q :=
  sqrt (sample_variance a).

End Spec.

(** ** Auxiliary definitions of the proofs *)

Module Aux.

Open Scope Q_scope.

(** The sum of (c + 2j) * l_j over the positions j = 0, 1, ... of [l]:
    the numerator of the Gini quotient, by recursion on the array. *)
Fixpoint rank_fold (c : Q) (l : list Q) : Q :=
  match l with
  | [] => 0
  | x :: t => c * x + rank_fold (c + 2) t
  end.

Section Rows.
Import Geometry Pipeline.

Variable transform_point : crs -> point -> point.

(** A row after [to_crs]: the geometry moves, the attributes stay. *)
Definition reprojected (utm : crs) (r : GeoDetection) : GeoDetection :=
  mkGeoDetection (map (transform_point utm) (geometry r)) (class r) (confidence r).

(** The planar area of a row in the projected CRS. *)
Definition planar_area (utm : crs) (r : GeoDetection) : Q :=
  polygon_area (map (transform_point utm) (geometry r)).

(** The rows of the input that pass the test of line 110. *)
Definition kept (utm : crs) (gdf : list GeoDetection) : list GeoDetection :=
  filter (fun r => Pipeline.Qlt_bool 1 (planar_area utm r)) gdf.

(** A surviving row with its area column. *)
Definition measured (utm : crs) (r : GeoDetection) : AreaDetection :=
  mkAreaDetection (reprojected utm r) (planar_area utm r).
End Rows.

(** Collaborators for the examples: a UTM estimate that raises on an
    empty frame, as geopandas does (the bounds of an empty frame are not
    numbers), and answers EPSG:32722 otherwise; a raster whose coordinates
    are already metres of that zone; a square root that is exact on the
    radicands 0, 1 and 4 of the examples. *)
Definition utm_or_raise (geoms : list Geometry.polygon) : option Pipeline.crs :=
  match geoms with
  | [] => None
  | _ :: _ => Some 32722%Z
  end.

Definition same_point (target : Pipeline.crs) (p : Geometry.point) : Geometry.point := p.

Definition sqrt_of_square (v : Q) : Q :=
  if Qeq_bool v 0 then 0 else if Qeq_bool v 1 then 1 else if Qeq_bool v 4 then 2 else v.

(** A north-up transform of scale 1, and a detector output of two boxes:
    one of 2 x 2 pixels and one of 1 x 1 pixel. *)
Definition north_up : Geometry.Affine := Geometry.mkAffine 1 0 0 0 (-1) 0.

Definition two_boxes : list Pipeline.Detection :=
  [ Pipeline.mkDetection (0, 0, 2, 2) 0 (9 # 10);
    Pipeline.mkDetection (0, 0, 1, 1) 0 (8 # 10) ].

(** A detector output of four boxes, of 1 x 2, 2 x 2, 2 x 3 and 1 x 1
    pixels: three of them are larger than one square metre. *)
Definition four_boxes : list Pipeline.Detection :=
  [ Pipeline.mkDetection (0, 0, 1, 2) 0 (9 # 10);
    Pipeline.mkDetection (0, 0, 2, 2) 0 (8 # 10);
    Pipeline.mkDetection (0, 0, 2, 3) 0 (7 # 10);
    Pipeline.mkDetection (0, 0, 1, 1) 0 (6 # 10) ].

End Aux.

(** ** The command line: validation, collaborators, outputs *)

Module Cli.

Import Geometry Pipeline.
Import String Ascii.
Local Open Scope string_scope.

(** The parsed arguments (lines 27-34).  Paths are strings of ASCII
    characters. *)
Record Args : Type := mkArgs
  { source : string; output : string; model : string; conf : Q; gsd : Q }.

(** [c.lower()] on one ASCII character. *)
Definition lower_ascii (c : ascii) : ascii :=
  let n := nat_of_ascii c in
  if (65 <=? n)%nat && (n <=? 90)%nat then ascii_of_nat (n + 32) else c.

(** [s.lower()] *)
Fixpoint lower (s : string) : string :=
  match s with
  | EmptyString => EmptyString
  | String c s' => String (lower_ascii c) (lower s')
  end.

(** [s.endswith(suffix)]: [s] is [suffix], or what follows its first
    character ends with [suffix]. *)
Fixpoint endswith (s suffix : string) : bool :=
  (s =? suffix) ||
  match s with
  | EmptyString => false
  | String _ s' => endswith s' suffix
  end.

(** Line 40: [args.source.lower().endswith(('.tif', '.tiff'))] *)
Definition supported_format (path : string) : bool :=
  endswith (lower path) ".tif" || endswith (lower path) ".tiff".

(** The five early returns of lines 37-53, by the message they print. *)
Inductive rejection : Type :=
| NotAFile (path : string)
| UnsupportedFormat (path : string)
| ModelMissing (path : string)
| ConfidenceOutOfRange
| GsdNotPositive.

(** The text printed for a rejection. *)
Definition message (r : rejection) : string :=
  match r with
  | NotAFile path => "Source path " ++ path ++ " is not a file."
  | UnsupportedFormat path =>
      "Source file " ++ path ++ " is not a supported image format."
  | ModelMissing path => "Model file " ++ path ++ " does not exist."
  | ConfidenceOutOfRange => "Confidence threshold must be between 0 and 1."
  | GsdNotPositive => "GSD must be a positive number."
  end.

(** What [main] does to the outside: the rejection message, the calls to
    the detector and to rasterio, the geopandas calls of [Pipeline.event]
    and the writes.  The progress messages of lines 57, 66, 74, 100, 131
    and 141 are not events; the writers of lines 135-139 are taken not to
    raise. *)
Inductive cli_event : Type :=
| Print (r : rejection)                          (* lines 38-53 *)
| LoadModel (path : string)                      (* YOLO(args.model) *)
| OpenRaster (path : string)                     (* rasterio.open, read *)
| Predict (conf : Q)                             (* model.predict *)
| Geopandas (e : event)                          (* lines 103-110 *)
| MakeDir (dir : string)                         (* output_dir.mkdir *)
| PublishCrs (rows : nat)                        (* gdf.to_crs(4326) *)
| WriteVector (dir : string) (rows : list AreaDetection)  (* gdf.to_file *)
| WriteMetrics (dir : string) (m : Metrics).     (* json.dump *)

(** How a run ends: an early return after a message, an exception of a
    collaborator, or the last line of [main]. *)
Inductive status : Type :=
| Returned
| Crashed
| Finished.

(** An event that creates or writes something under the output
    directory. *)
Definition writes (e : cli_event) : bool :=
  match e with
  | MakeDir _ | WriteVector _ _ | WriteMetrics _ _ => true
  | _ => false
  end.

Section Collaborators.

(** [os.path.isfile] *)
Variable isfile : string -> bool.
(** The detector: loading it and running it may raise ([None]). *)
Variable Model : Type.
Variable load_model : string -> option Model.
Variable predict : Model -> Raster.image -> Q -> option (list Detection).
(** rasterio: the three bands with their sample type, and the transform. *)
Variable read_raster : string -> option (Raster.dtype * Raster.image * Affine).
(** geopandas and pandas, as in [Pipeline]. *)
Variable estimate_utm_crs : list polygon -> option crs.
Variable transform_point : crs -> point -> point.
Variable sqrt : Q -> Q.
(** pyproj's map from the UTM zone to EPSG:4326, on one coordinate. *)
Variable publish_point : point -> point.

(** Lines 36-53. *)
Definition validate (args : Args) : option rejection :=
  if negb (isfile (source args)) then Some (NotAFile (source args))
  else if negb (supported_format (source args))
       then Some (UnsupportedFormat (source args))
  else if negb (isfile (model args)) then Some (ModelMissing (model args))
  else if negb (Qle_bool 0 (conf args) && Qle_bool (conf args) 1)
       then Some ConfidenceOutOfRange
  else if negb (Qlt_bool 0 (gsd args)) then Some GsdNotPositive
  else None.

(** Line 136 on one row: the geometry moves to EPSG:4326, the attributes
    and the area column stay. *)
Definition published (d : AreaDetection) : AreaDetection :=
  mkAreaDetection
    (mkGeoDetection (map publish_point (geometry (row d)))
                    (class (row d)) (confidence (row d)))
    (area d).

(** [main()]: the events in the order of the script, and how it ends. *)
Definition main_cli (args : Args) : list cli_event * status :=
  match validate args with
  | Some r => ([Print r], Returned)
  | None =>
    match load_model (model args) with
    | None => ([LoadModel (model args)], Crashed)
    | Some yolo =>
      match read_raster (source args) with
      | None => ([LoadModel (model args); OpenRaster (source args)], Crashed)
      | Some (dt, img, transform) =>
        let opened := [LoadModel (model args); OpenRaster (source args);
                       Predict (conf args)] in
        match predict yolo img (conf args) with
        | None => (opened, Crashed)
        | Some detections =>
          match run (main estimate_utm_crs transform_point sqrt
                          dt img transform detections (gsd args)) with
          | (Raised, log) => ((opened ++ map Geopandas log)%list, Crashed)
          | (Ok (gdf, metrics), log) =>
              ((opened ++ map Geopandas log ++
                [MakeDir (output args); PublishCrs (List.length gdf);
                 WriteVector (output args) (map published gdf);
                 WriteMetrics (output args) metrics])%list,
               Finished)
          end
        end
      end
    end
  end.

End Collaborators.

End Cli.

(** * Properties *)

(** ** Sorting *)

Section SortFacts.
Context {A : Type}.
Variable leb : A -> A -> bool.

Lemma insert_perm (x : A) (l : list A) : Permutation (x :: l) (insert leb x l).
Proof.
  induction l as [|y t IH]; simpl.
  - apply Permutation_refl.
  - destruct (leb x y).
    + apply Permutation_refl.
    + eapply perm_trans; [apply perm_swap|]. now apply perm_skip.
Qed.

Lemma np_sort_perm (l : list A) : Permutation l (np_sort leb l).
Proof.
  induction l as [|x t IH]; simpl.
  - constructor.
  - eapply perm_trans; [apply perm_skip, IH | apply insert_perm].
Qed.

Lemma np_sort_length (l : list A) : length (np_sort leb l) = length l.
Proof. symmetry. apply Permutation_length, np_sort_perm. Qed.

Variable le : A -> A -> Prop.
Hypothesis leb_le : forall x y, leb x y = true -> le x y.
Hypothesis leb_gt : forall x y, leb x y = false -> le y x.
Hypothesis le_trans : forall x y z, le x y -> le y z -> le x z.

Lemma insert_sorted (x : A) (l : list A) :
  StronglySorted le l -> StronglySorted le (insert leb x l).
Proof.
  induction 1 as [|y t Hs IH Hall]; simpl.
  - repeat constructor.
  - destruct (leb x y) eqn:E.
    + constructor; [now constructor|].
      constructor; [now apply leb_le|].
      eapply Forall_impl; [|exact Hall]. intros z Hz.
      eapply le_trans; [apply leb_le, E | exact Hz].
    + constructor; [exact IH|].
      eapply Permutation_Forall; [apply insert_perm|].
      constructor; [now apply leb_gt | exact Hall].
Qed.

Lemma np_sort_sorted (l : list A) : StronglySorted le (np_sort leb l).
Proof.
  induction l as [|x t IH]; simpl.
  - constructor.
  - now apply insert_sorted.
Qed.
End SortFacts.

Module ExactFacts.

Import Exact Spec.
Open Scope Q_scope.

Lemma sort_areas_perm (l : list Q) : Permutation l (sort_areas l).
Proof. apply np_sort_perm. Qed.

Lemma sort_areas_length (l : list Q) : length (sort_areas l) = length l.
Proof. apply np_sort_length. Qed.

Lemma sort_areas_sorted (l : list Q) : StronglySorted Qle (sort_areas l).
Proof.
  apply np_sort_sorted.
  - intros x y H. now apply Qle_bool_iff.
  - intros x y H. destruct (Qlt_le_dec x y) as [Hlt|Hle]; [|exact Hle].
    apply Qlt_le_weak in Hlt. apply Qle_bool_iff in Hlt. congruence.
  - intros x y z. apply Qle_trans.
Qed.

(** *** Sums *)

Lemma fold_left_Qplus (l : list Q) (acc : Q) :
  fold_left Qplus l acc == acc + fold_left Qplus l 0.
Proof.
  revert acc. induction l as [|x t IH]; intros acc; simpl.
  - ring.
  - rewrite (IH (acc + x)), (IH (0 + x)). ring.
Qed.

Lemma np_sum_nil : np_sum [] == 0.
Proof. reflexivity. Qed.

Lemma np_sum_cons (x : Q) (l : list Q) : np_sum (x :: l) == x + np_sum l.
Proof. unfold np_sum. simpl. rewrite fold_left_Qplus. ring. Qed.

Lemma np_sum_app (u v : list Q) : np_sum (u ++ v) == np_sum u + np_sum v.
Proof.
  induction u as [|x t IH]; simpl.
  - rewrite np_sum_nil. ring.
  - rewrite !np_sum_cons, IH. ring.
Qed.

Lemma np_sum_perm (u v : list Q) : Permutation u v -> np_sum u == np_sum v.
Proof.
  induction 1 as [|x u v _ IH|x y u|u v w _ IH1 _ IH2].
  - reflexivity.
  - rewrite !np_sum_cons, IH. reflexivity.
  - rewrite !np_sum_cons. ring.
  - now rewrite IH1.
Qed.

Lemma np_sum_nonneg (l : list Q) : Forall (Qle 0) l -> 0 <= np_sum l.
Proof.
  induction 1 as [|x t Hx _ IH].
  - rewrite np_sum_nil. apply Qle_refl.
  - rewrite np_sum_cons. lra.
Qed.

Lemma big_sum_ext (f g : nat -> Q) (lo len : nat) :
  (forall i, (lo <= i < lo + len)%nat -> f i == g i) ->
  big_sum f lo len == big_sum g lo len.
Proof.
  revert lo. induction len as [|len IH]; intros lo H; simpl.
  - reflexivity.
  - rewrite (H lo) by lia. rewrite (IH (S lo)); [reflexivity|].
    intros i Hi. apply H. lia.
Qed.

Lemma arange_S (lo : Z) (len : nat) :
  arange lo (S len) = lo :: arange (lo + 1) len.
Proof.
  unfold arange. simpl. f_equal; [lia|].
  rewrite <- seq_shift, map_map. apply map_ext. intros k. lia.
Qed.

(** An array operation against the index array is the indexed sum. *)
Lemma np_sum_map2_arange (h : Z -> Q -> Q) (l : list Q) (k : nat) :
  np_sum (map2 h (arange (Z.of_nat (S k)) (length l)) l)
  == big_sum (fun i => h (Z.of_nat i) (nth (i - S k) l 0)) (S k) (length l).
Proof.
  revert k. induction l as [|x t IH]; intros k.
  - reflexivity.
  - cbn [length]. rewrite arange_S. cbn [map2 big_sum].
    rewrite np_sum_cons. replace (S k - S k)%nat with O by lia. cbn [nth].
    replace (Z.of_nat (S k) + 1)%Z with (Z.of_nat (S (S k))) by lia.
    rewrite IH. apply Qplus_comp; [reflexivity|].
    apply big_sum_ext. intros i Hi.
    replace (i - S k)%nat with (S (i - S (S k))) by lia. reflexivity.
Qed.

Lemma np_sum_firstn_big (l : list Q) (k m : nat) :
  (m <= length l)%nat ->
  np_sum (firstn m l) == big_sum (fun i => nth (i - S k) l 0) (S k) m.
Proof.
  revert l k. induction m as [|m IH]; intros l k Hm.
  - reflexivity.
  - destruct l as [|x t]; [simpl in Hm; lia|].
    cbn [firstn big_sum]. rewrite np_sum_cons.
    replace (S k - S k)%nat with O by lia. cbn [nth].
    rewrite (IH t (S k)) by (simpl in Hm; lia).
    apply Qplus_comp; [reflexivity|].
    apply big_sum_ext. intros i Hi.
    replace (i - S k)%nat with (S (i - S (S k))) by lia. reflexivity.
Qed.

Lemma np_sum_big (l : list Q) : np_sum l == big_sum (nth1 l) 1 (length l).
Proof.
  rewrite <- (firstn_all l) at 1. now rewrite (np_sum_firstn_big l 0).
Qed.

(** *** Float results *)

#[global] Instance res_eq_equivalence : Equivalence res_eq.
Proof.
  split.
  - intros [x|]; simpl; [reflexivity|exact I].
  - intros [x|] [y|]; simpl; auto. intros H. now symmetry.
  - intros [x|] [y|] [z|]; simpl; auto; try contradiction.
    intros H1 H2. now rewrite H1.
Qed.

Lemma fdiv_proper (a a' b b' : Q) :
  a == a' -> b == b' -> fdiv a b =?= fdiv a' b'.
Proof.
  intros Ha Hb. unfold fdiv.
  destruct (Qeq_bool b 0) eqn:E, (Qeq_bool b' 0) eqn:E'; simpl; auto.
  - apply Qeq_bool_iff in E. rewrite Hb in E. apply Qeq_bool_iff in E. congruence.
  - apply Qeq_bool_iff in E'. rewrite <- Hb in E'. apply Qeq_bool_iff in E'. congruence.
  - now rewrite Ha, Hb.
Qed.

Lemma fdiv_some (a b : Q) : ~ b == 0 -> fdiv a b = Some (a / b).
Proof.
  intros Hb. unfold fdiv. destruct (Qeq_bool b 0) eqn:E; [|reflexivity].
  apply Qeq_bool_iff in E. contradiction.
Qed.

Lemma option_map_proper (f g : Q -> Q) (r s : option Q) :
  (forall x y, x == y -> f x == g y) -> r =?= s -> option_map f r =?= option_map g s.
Proof. intros H. destruct r, s; simpl; auto. Qed.

Lemma inject_Z_rank (i n : Z) :
  inject_Z (2 * i - n - 1) == 2 * inject_Z i - inject_Z n - 1.
Proof.
  unfold Z.sub. rewrite !inject_Z_plus, inject_Z_mult, !inject_Z_opp.
  change (inject_Z 2) with 2. change (inject_Z 1) with 1. ring.
Qed.

Lemma fdiv_zero_divisor (a b : Q) : b == 0 -> fdiv a b = None.
Proof.
  intros Hb. unfold fdiv. apply Qeq_bool_iff in Hb. now rewrite Hb.
Qed.

(** C1. For every non-empty array of areas, [calculate_gini] works on the
    ascending arrangement a_1..a_n of the areas and returns the quotient
    (sum over i of (2i - n - 1) * a_i) / (n * sum of a_i) itself; it has no
    finite value only when the divisor of that quotient is zero.  On
    [1,2,3,4,5], in any order, the quotient is 20 / 75, in exact arithmetic
    and in binary64. *)
Theorem calculate_gini_rank_formula :
  (forall areas : list Q,
      areas <> [] ->
      let a := sort_areas areas in
      StronglySorted Qle a /\ Permutation areas a /\
      (~ np_sum areas == 0 ->
       exists g, calculate_gini areas = Some g /\ g == gini_quotient a) /\
      (np_sum areas == 0 -> calculate_gini areas = None)) /\
  calculate_gini [1; 2; 3; 4; 5] =?= Some (20 / 75) /\
  calculate_gini [5; 1; 4; 2; 3] =?= Some (20 / 75) /\
  Binary64.calculate_gini [1; 2; 3; 4; 5]%float = (20 / 75)%float /\
  Binary64.calculate_gini [5; 1; 4; 2; 3]%float = (20 / 75)%float.
Proof.
  split; [|repeat split; vm_compute; reflexivity].
  intros areas Hne a.
  split; [apply sort_areas_sorted|]. split; [apply sort_areas_perm|].
  assert (Hlen : length a = length areas) by apply sort_areas_length.
  assert (Hsum : np_sum a == np_sum areas)
    by (symmetry; apply np_sum_perm, sort_areas_perm).
  assert (Hnum : np_sum (map2 (fun i x => inject_Z (2 * i - Z.of_nat (length a) - 1) * x)
                              (arange 1 (length a)) a)
                 == big_sum (fun i => (2 * of_nat i - of_nat (length a) - 1) * nth1 a i)
                            1 (length a)).
  { etransitivity;
      [apply (np_sum_map2_arange
                (fun i x => inject_Z (2 * i - Z.of_nat (length a) - 1) * x) a 0)|].
    apply big_sum_ext. intros i _. unfold nth1, of_nat.
    now rewrite inject_Z_rank. }
  unfold calculate_gini. fold a. rewrite <- Hlen. split.
  - intros Hs.
    assert (Hn : ~ inject_Z (Z.of_nat (length a)) == 0).
    { change 0 with (inject_Z 0). rewrite inject_Z_injective, Hlen.
      destruct areas; [congruence|discriminate]. }
    assert (Hd : ~ inject_Z (Z.of_nat (length a)) * np_sum a == 0).
    { intros H. apply Qmult_integral in H. rewrite Hsum in H. tauto. }
    rewrite (fdiv_some _ _ Hd). eexists. split; [reflexivity|].
    unfold gini_quotient. rewrite Hnum, (np_sum_big a). reflexivity.
  - intros Hz. apply fdiv_zero_divisor. rewrite Hsum, Hz. ring.
Qed.

Lemma calculate_gini_rank_formula_witness :
  exists g, calculate_gini [2; 6; 4] = Some g /\
            g == gini_quotient (sort_areas [2; 6; 4]) /\ g == 2 # 9.
Proof.
  destruct (proj1 calculate_gini_rank_formula [2; 6; 4]) as (_ & _ & Hq & _);
    [discriminate|].
  destruct Hq as (g & Hg & Hval); [vm_compute; discriminate|].
  exists g. split; [exact Hg|]. split; [exact Hval|].
  rewrite Hval. reflexivity.
Defined.

(** C2. For every array of areas, [calculate_pv50] works on the ascending
    arrangement of the areas and returns 100 times the sum of its first
    floor(n/2) elements over the total sum; it returns 20 on [1,2,3,4,5]
    and 50 on [1,1,1,1], in exact arithmetic and in binary64. *)
Theorem calculate_pv50_smallest_half :
  (forall areas : list Q,
      let a := sort_areas areas in
      StronglySorted Qle a /\ Permutation areas a /\
      calculate_pv50 areas =?= pv50_formula a) /\
  calculate_pv50 [1; 2; 3; 4; 5] =?= Some 20 /\
  calculate_pv50 [1; 1; 1; 1] =?= Some 50 /\
  Binary64.calculate_pv50 [1; 2; 3; 4; 5]%float = 20%float /\
  Binary64.calculate_pv50 [1; 1; 1; 1]%float = 50%float.
Proof.
  split; [|repeat split; vm_compute; reflexivity].
  intros areas a. split; [apply sort_areas_sorted|]. split; [apply sort_areas_perm|].
  unfold calculate_pv50, pv50_formula. fold a.
  apply option_map_proper; [intros x y H; rewrite H; ring|].
  apply fdiv_proper.
  - apply (np_sum_firstn_big a 0). apply Nat.Div0.div_le_upper_bound. lia.
  - apply np_sum_big.
Qed.

(** *** The rank-weighted sum, by recursion *)

Import Aux.

Lemma rank_fold_proper (c c' : Q) (l : list Q) :
  c == c' -> rank_fold c l == rank_fold c' l.
Proof.
  revert c c'. induction l as [|x t IH]; intros c c' H; simpl.
  - reflexivity.
  - rewrite (IH (c + 2) (c' + 2)) by (now rewrite H). now rewrite H.
Qed.

Lemma rank_fold_offset (c d : Q) (l : list Q) :
  rank_fold (c + d) l == rank_fold c l + d * np_sum l.
Proof.
  revert c. induction l as [|x t IH]; intros c; simpl.
  - rewrite np_sum_nil. ring.
  - rewrite np_sum_cons.
    rewrite (rank_fold_proper (c + d + 2) (c + 2 + d) t) by ring.
    rewrite IH. ring.
Qed.

Lemma of_nat_S (m : nat) : of_nat (S m) == of_nat m + 1.
Proof.
  unfold of_nat. rewrite Nat2Z.inj_succ. unfold Z.succ.
  now rewrite inject_Z_plus.
Qed.

Lemma of_nat_0 : of_nat 0 == 0.
Proof. reflexivity. Qed.

Lemma of_nat_nonneg (m : nat) : 0 <= of_nat m.
Proof.
  unfold of_nat. change 0 with (inject_Z 0). rewrite <- Zle_Qle. lia.
Qed.

Lemma of_nat_le (m k : nat) : (m <= k)%nat -> of_nat m <= of_nat k.
Proof. intros H. unfold of_nat. rewrite <- Zle_Qle. lia. Qed.

(** The array expression of line 16 is [rank_fold]. *)
Lemma gini_numerator_rank_fold (n : Z) (l : list Q) (k : Z) :
  np_sum (map2 (fun i x => inject_Z (2 * i - n - 1) * x) (arange k (length l)) l)
  == rank_fold (inject_Z (2 * k - n - 1)) l.
Proof.
  revert k. induction l as [|x t IH]; intros k.
  - reflexivity.
  - cbn [length]. rewrite arange_S. cbn [map2 rank_fold].
    rewrite np_sum_cons, IH. apply Qplus_comp; [reflexivity|].
    apply rank_fold_proper. rewrite !inject_Z_rank, inject_Z_plus.
    change (inject_Z 1) with 1. ring.
Qed.

Lemma sum_ge_const (x : Q) (l : list Q) :
  Forall (Qle x) l -> of_nat (length l) * x <= np_sum l.
Proof.
  induction 1 as [|y t Hy _ IH].
  - cbn [length]. rewrite np_sum_nil, of_nat_0. lra.
  - cbn [length]. rewrite of_nat_S, np_sum_cons. lra.
Qed.

Lemma sum_le_const (x : Q) (l : list Q) :
  Forall (fun y => y <= x) l -> np_sum l <= of_nat (length l) * x.
Proof.
  induction 1 as [|y t Hy _ IH].
  - cbn [length]. rewrite np_sum_nil, of_nat_0. lra.
  - cbn [length]. rewrite of_nat_S, np_sum_cons. lra.
Qed.

Lemma sum_eq_const (x : Q) (l : list Q) :
  Forall (Qeq x) l -> np_sum l == of_nat (length l) * x.
Proof.
  induction 1 as [|y t Hy _ IH].
  - cbn [length]. rewrite np_sum_nil, of_nat_0. ring.
  - cbn [length]. rewrite of_nat_S, np_sum_cons, IH, <- Hy. ring.
Qed.

(** On an ascending array the rank-weighted sum is not negative. *)
Lemma rank_fold_sorted_nonneg (l : list Q) :
  StronglySorted Qle l -> 0 <= rank_fold (1 - of_nat (length l)) l.
Proof.
  induction 1 as [|x t Hs IH Hall].
  - simpl. apply Qle_refl.
  - cbn [length rank_fold].
    rewrite (rank_fold_proper (1 - of_nat (S (length t)) + 2)
                              (1 - of_nat (length t) + 1) t)
      by (rewrite of_nat_S; ring).
    rewrite rank_fold_offset, of_nat_S.
    pose proof (sum_ge_const x t Hall) as Hsum.
    set (m := of_nat (length t)) in *. set (s := np_sum t) in *.
    set (r := rank_fold (1 - m) t) in *.
    setoid_replace ((1 - (m + 1)) * x + (r + 1 * s)) with (r + (s - m * x)) by ring.
    lra.
Qed.

(** On a constant array the rank-weighted sum vanishes. *)
Lemma rank_fold_const (v : Q) (l : list Q) :
  Forall (Qeq v) l -> rank_fold (1 - of_nat (length l)) l == 0.
Proof.
  induction 1 as [|x t Hx Hall IH].
  - reflexivity.
  - cbn [length rank_fold].
    rewrite (rank_fold_proper (1 - of_nat (S (length t)) + 2)
                              (1 - of_nat (length t) + 1) t)
      by (rewrite of_nat_S; ring).
    rewrite rank_fold_offset, IH, of_nat_S, (sum_eq_const v t Hall), <- Hx. ring.
Qed.

(** With non-negative entries the rank-weighted sum is at most the
    largest weight times the total. *)
Lemma rank_fold_upper (c : Q) (l : list Q) :
  Forall (Qle 0) l ->
  rank_fold c l <= (c + 2 * of_nat (length l) - 2) * np_sum l.
Proof.
  intros H. revert c. induction H as [|x t Hx Hall IH]; intros c.
  - simpl. rewrite np_sum_nil. lra.
  - cbn [length rank_fold]. rewrite of_nat_S, np_sum_cons.
    specialize (IH (c + 2)).
    pose proof (of_nat_nonneg (length t)) as Hm.
    pose proof (np_sum_nonneg t Hall) as Hs.
    set (m := of_nat (length t)) in *. set (s := np_sum t) in *.
    set (r := rank_fold (c + 2) t) in *.
    nra.
Qed.

Lemma gini_numerator_sorted (areas : list Q) :
  let a := sort_areas areas in
  np_sum (map2 (fun i x => inject_Z (2 * i - Z.of_nat (length areas) - 1) * x)
               (arange 1 (length areas)) a)
  == rank_fold (1 - of_nat (length a)) a.
Proof.
  intros a. assert (Hlen : length a = length areas) by apply sort_areas_length.
  rewrite <- Hlen. rewrite gini_numerator_rank_fold.
  apply rank_fold_proper. rewrite inject_Z_rank. unfold of_nat.
  change (inject_Z 1) with 1. ring.
Qed.

Lemma of_nat_pos (m : nat) : (0 < m)%nat -> 1 <= of_nat m.
Proof.
  intros H. unfold of_nat. change 1 with (inject_Z 1). rewrite <- Zle_Qle. lia.
Qed.

(** C6, in exact arithmetic.  For a non-empty array of non-negative areas
    with a positive total, [calculate_gini] returns a number in [0, 1]; the
    number is 0 when all areas are equal, and so when there is a single
    area. *)
Theorem calculate_gini_unit_interval (areas : list Q) :
  areas <> [] -> Forall (Qle 0) areas -> 0 < np_sum areas ->
  exists g, calculate_gini areas = Some g /\
            0 <= g <= 1 /\
            ((exists v, Forall (Qeq v) areas) -> g == 0) /\
            (length areas = 1%nat -> g == 0).
Proof.
  intros Hne Hpos Htot.
  pose proof (sort_areas_perm areas) as Hperm.
  pose proof (sort_areas_length areas) as Hlen.
  pose proof (sort_areas_sorted areas) as Hsorted.
  pose proof (gini_numerator_sorted areas) as Hnum. cbv zeta in Hnum.
  unfold calculate_gini.
  set (a := sort_areas areas) in *.
  set (num := np_sum (map2 _ _ a)) in *.
  assert (Hsum : np_sum a == np_sum areas)
    by (symmetry; now apply np_sum_perm).
  assert (Hn : 1 <= of_nat (length a)).
  { apply of_nat_pos. rewrite Hlen. destruct areas; [congruence|simpl; lia]. }
  fold (of_nat (length areas)). rewrite <- Hlen.
  set (n := of_nat (length a)) in *. set (s := np_sum a) in *.
  assert (Hs : 0 < s) by (now rewrite Hsum).
  assert (Hden : 0 < n * s) by nra.
  assert (Hlow : 0 <= num).
  { rewrite Hnum. now apply rank_fold_sorted_nonneg. }
  assert (Hup : num <= n * s).
  { rewrite Hnum.
    assert (Hall : Forall (Qle 0) a) by (eapply Permutation_Forall; eauto).
    pose proof (rank_fold_upper (1 - n) a Hall) as H. fold n s in H. nra. }
  assert (Hconst : (exists v, Forall (Qeq v) areas) -> num / (n * s) == 0).
  { intros [v Hv]. rewrite Hnum.
    assert (Hz : rank_fold (1 - n) a == 0).
    { apply (rank_fold_const v a). eapply Permutation_Forall; eauto. }
    rewrite Hz. unfold Qdiv. ring. }
  exists (num / (n * s)). split; [apply fdiv_some; lra|].
  split; [split|split].
  - apply Qle_shift_div_l; [exact Hden|lra].
  - apply Qle_shift_div_r; [exact Hden|lra].
  - exact Hconst.
  - intros H1. rewrite Hlen in H1. apply Hconst.
    destruct areas as [|x [|y t]]; try discriminate.
    exists x. constructor; [reflexivity|constructor].
Qed.

Lemma calculate_gini_unit_interval_witness :
  exists g, calculate_gini [4; 4; 4; 4] = Some g /\ g == 0.
Proof.
  destruct (calculate_gini_unit_interval [4; 4; 4; 4]) as [g [Hg [_ [Hc _]]]].
  - discriminate.
  - repeat constructor; discriminate.
  - reflexivity.
  - exists g. split; [exact Hg|]. apply Hc. exists 4.
    repeat constructor; reflexivity.
Defined.

(** *** The smaller half *)

Lemma sorted_app_cross (u v : list Q) :
  StronglySorted Qle (u ++ v) ->
  StronglySorted Qle v /\ forall x y, In x u -> In y v -> x <= y.
Proof.
  induction u as [|z u IH]; simpl; intros H.
  - split; [exact H|]. intros x y [].
  - inversion H as [|? ? Hs Hall]; subst. destruct (IH Hs) as [Hv Hc].
    split; [exact Hv|]. intros x y [->|Hx] Hy.
    + rewrite Forall_forall in Hall. apply Hall, in_or_app. now right.
    + now apply Hc.
Qed.

(** In an ascending array of non-negative numbers, a prefix weighs no more
    than the rest as soon as it is no longer than the rest. *)
Lemma prefix_le_rest (l : list Q) (h : nat) :
  StronglySorted Qle l -> Forall (Qle 0) l -> (h + h <= length l)%nat ->
  np_sum (firstn h l) <= np_sum (skipn h l).
Proof.
  intros Hs Hpos Hh.
  rewrite <- (firstn_skipn h l) in Hs, Hpos.
  apply Forall_app in Hpos. destruct Hpos as [_ Hv].
  destruct (sorted_app_cross _ _ Hs) as [Hsv Hc].
  assert (Hlu : length (firstn h l) = h) by (apply firstn_length_le; lia).
  assert (Hlv : length (skipn h l) = (length l - h)%nat) by apply length_skipn.
  destruct (skipn h l) as [|p v'] eqn:Ev.
  - simpl in Hlv. replace h with O by lia. apply Qle_refl.
  - assert (Hp : 0 <= p) by (inversion Hv; assumption).
    assert (Hu : np_sum (firstn h l) <= of_nat (length (firstn h l)) * p).
    { apply sum_le_const. apply Forall_forall. intros x Hx.
      apply Hc; [exact Hx|now left]. }
    assert (Hv' : of_nat (length (p :: v')) * p <= np_sum (p :: v')).
    { apply sum_ge_const. inversion Hsv; subst.
      constructor; [apply Qle_refl|assumption]. }
    assert (Hle : of_nat (length (firstn h l)) <= of_nat (length (p :: v'))).
    { apply of_nat_le. lia. }
    nra.
Qed.

(** C10, in exact arithmetic.  For a non-empty array of strictly positive
    areas, [calculate_pv50] returns a number that is at most 50. *)
Theorem calculate_pv50_at_most_half (areas : list Q) :
  areas <> [] -> Forall (Qlt 0) areas ->
  exists p, calculate_pv50 areas = Some p /\ p <= 50.
Proof.
  intros Hne Hpos.
  pose proof (sort_areas_perm areas) as Hperm.
  pose proof (sort_areas_length areas) as Hlen.
  pose proof (sort_areas_sorted areas) as Hsorted.
  unfold calculate_pv50. set (a := sort_areas areas) in *.
  assert (Hall : Forall (Qlt 0) a) by (eapply Permutation_Forall; eauto).
  assert (Hall0 : Forall (Qle 0) a).
  { eapply Forall_impl; [|exact Hall]. intros x. apply Qlt_le_weak. }
  assert (Hs : 0 < np_sum a).
  { destruct a as [|x t]; [destruct areas; [congruence|discriminate]|].
    rewrite np_sum_cons. inversion Hall; subst. inversion Hall0; subst.
    pose proof (np_sum_nonneg t H4). lra. }
  pose proof (prefix_le_rest a (length a / 2) Hsorted Hall0) as Hhalf.
  assert (Hdiv : (length a / 2 + length a / 2 <= length a)%nat).
  { pose proof (Nat.Div0.mul_div_le (length a) 2). lia. }
  specialize (Hhalf Hdiv).
  assert (Hsplit : np_sum a ==
                   np_sum (firstn (length a / 2) a) + np_sum (skipn (length a / 2) a)).
  { rewrite <- np_sum_app, firstn_skipn. reflexivity. }
  set (sum_smallest_50 := np_sum (firstn (length a / 2) a)) in *.
  set (rest := np_sum (skipn (length a / 2) a)) in *.
  set (total_sum := np_sum a) in *.
  assert (Hnz : ~ total_sum == 0) by (apply Qnot_eq_sym, Qlt_not_eq, Hs).
  rewrite (fdiv_some sum_smallest_50 total_sum Hnz). simpl.
  eexists. split; [reflexivity|].
  assert (Hq : sum_smallest_50 / total_sum <= 1 # 2).
  { apply Qle_shift_div_r; [exact Hs|]. lra. }
  lra.
Qed.

Lemma calculate_pv50_at_most_half_witness :
  exists p, calculate_pv50 [1; 2; 3; 4; 5] = Some p /\ p <= 50.
Proof.
  apply (calculate_pv50_at_most_half [1; 2; 3; 4; 5]).
  - discriminate.
  - repeat constructor.
Defined.

End ExactFacts.

(** ** Coverage *)

Module RasterFacts.

Import Raster.
Open Scope Z_scope.

Lemma np_sum_int_acc (l : list Z) (acc : Z) :
  fold_left Z.add l acc = acc + np_sum_int l.
Proof.
  unfold np_sum_int. revert acc. induction l as [|x t IH]; intros acc; simpl.
  - lia.
  - rewrite (IH (acc + x)), (IH x). lia.
Qed.

Lemma np_sum_int_cons (x : Z) (l : list Z) : np_sum_int (x :: l) = x + np_sum_int l.
Proof. unfold np_sum_int at 1. simpl. apply np_sum_int_acc. Qed.

(** The count of line 113 is the number of pixels whose wrapped band sum
    is positive. *)
Lemma valid_count_filter (dt : dtype) (img : image) :
  valid_count dt img =
  Z.of_nat (length (filter (fun p => 0 <? band_sum dt p) (concat img))).
Proof.
  unfold valid_count. induction (concat img) as [|p t IH].
  - reflexivity.
  - cbn [map filter]. rewrite np_sum_int_cons, IH. unfold valid_flag.
    destruct (0 <? band_sum dt p); cbn [length]; lia.
Qed.

Lemma wrap_in_range (dt : dtype) (z : Z) :
  match dt with UInt w | SInt w => 0 < w end ->
  in_range dt z -> wrap dt z = z.
Proof.
  destruct dt as [w|w]; simpl; intros Hw Hz.
  - apply Z.mod_small. exact Hz.
  - assert (E : 2 ^ w = 2 * 2 ^ (w - 1)).
    { replace w with (Z.succ (w - 1)) at 1 by lia. apply Z.pow_succ_r. lia. }
    rewrite Z.mod_small by lia. lia.
Qed.

Lemma band_sum_no_wrap (dt : dtype) (p : pixel) :
  match dt with UInt w | SInt w => 0 < w end ->
  no_wrap dt p -> (0 <? band_sum dt p) = spec_valid p.
Proof.
  destruct p as [[b0 b1] b2]. intros Hw [H1 H2]. unfold band_sum, spec_valid.
  rewrite (wrap_in_range dt (b0 + b1) Hw H1).
  now rewrite (wrap_in_range dt (b0 + b1 + b2) Hw H2).
Qed.

(** Where no band sum leaves the sample type, line 113 is the estimate of
    the specification. *)
Lemma total_area_ha_no_wrap (dt : dtype) (img : image) (gsd : Q) :
  match dt with UInt w | SInt w => 0 < w end ->
  Forall (no_wrap dt) (concat img) ->
  (total_area_ha dt img gsd == spec_total_area_ha img gsd)%Q.
Proof.
  intros Hw Hall. unfold total_area_ha, spec_total_area_ha, spec_valid_count.
  rewrite valid_count_filter.
  replace (filter (fun p => 0 <? band_sum dt p) (concat img))
    with (filter spec_valid (concat img)).
  - simpl. field.
  - induction Hall as [|p t Hp _ IH]; [reflexivity|].
    cbn [filter]. rewrite IH, (band_sum_no_wrap dt p Hw Hp). reflexivity.
Qed.

(** An all-zero array of any shape and any sample type covers nothing. *)
Lemma total_area_ha_all_zero (dt : dtype) (img : image) (gsd : Q) :
  match dt with UInt w | SInt w => 0 < w end ->
  Forall (fun p => p = (0, 0, 0)) (concat img) ->
  (total_area_ha dt img gsd == 0)%Q.
Proof.
  intros Hw Hall. unfold total_area_ha. rewrite valid_count_filter.
  replace (filter (fun p => 0 <? band_sum dt p) (concat img)) with (@nil pixel).
  - simpl. field.
  - induction Hall as [|p t Hp _ IH]; [reflexivity|].
    cbn [filter]. rewrite <- IH. subst p.
    rewrite (band_sum_no_wrap dt (0, 0, 0) Hw); [reflexivity|].
    destruct dt as [w|w]; simpl in *;
      pose proof (Z.pow_pos_nonneg 2 w); pose proof (Z.pow_pos_nonneg 2 (w - 1)); lia.
Qed.

(** C4, at a uint8 raster.  The pixel (128, 128, 0) holds data: its band
    values add up to 256.  The uint8 addition of line 113 wraps that sum to
    0, the pixel is not counted, and the estimate is 0 where the
    specification gives 1 * GSD^2 / 10000. *)
Theorem total_area_ha_uint8_wraps :
  let img := [[(128, 128, 0)]] in
  Forall (fun p => let '(b0, b1, b2) := p in
                   in_range uint8 b0 /\ in_range uint8 b1 /\ in_range uint8 b2)
         (concat img) /\
  spec_valid_count img = 1 /\
  valid_count uint8 img = 0 /\
  (total_area_ha uint8 img 1 == 0)%Q /\
  (spec_total_area_ha img 1 == 1 # 10000)%Q /\
  ~ (total_area_ha uint8 img 1 == spec_total_area_ha img 1)%Q.
Proof.
  cbv zeta. repeat split; try (vm_compute; congruence); try reflexivity.
  repeat constructor; simpl; lia.
Qed.

End RasterFacts.

(** ** Projection of the pixel boxes *)

Module GeometryFacts.

Import Geometry.
Open Scope Q_scope.

(** The hypotheses that describe a minimum or a maximum, for [lra]. *)
Ltac minmax_cases :=
  repeat match goal with
    | |- context [Qmin ?x ?y] =>
        let H := fresh "Hmin" in
        destruct (Q.min_spec x y) as [[? H]|[? H]];
        generalize dependent (Qmin x y); intros
    | |- context [Qmax ?x ?y] =>
        let H := fresh "Hmax" in
        destruct (Q.max_spec x y) as [[? H]|[? H]];
        generalize dependent (Qmax x y); intros
    | _ : context [Qmin ?x ?y] |- _ =>
        let H := fresh "Hmin" in
        destruct (Q.min_spec x y) as [[? H]|[? H]];
        generalize dependent (Qmin x y); intros
    | _ : context [Qmax ?x ?y] |- _ =>
        let H := fresh "Hmax" in
        destruct (Q.max_spec x y) as [[? H]|[? H]];
        generalize dependent (Qmax x y); intros
    end.

(** The corners of a box are the pairs of one of its two abscissas and
    one of its two ordinates. *)
Lemma box_vertices (minx miny maxx maxy : Q) (p : point) :
  Exists (point_eq p) (box minx miny maxx maxy) <->
  (fst p == minx \/ fst p == maxx) /\ (snd p == miny \/ snd p == maxy).
Proof.
  unfold box, point_eq. rewrite !Exists_cons, Exists_nil. simpl. tauto.
Qed.

Lemma shoelace_box (minx miny maxx maxy : Q) :
  shoelace (box minx miny maxx maxy) == 2 * ((maxx - minx) * (maxy - miny)).
Proof. simpl. ring. Qed.

Lemma polygon_area_box (minx miny maxx maxy : Q) :
  polygon_area (box minx miny maxx maxy) == Qabs (maxx - minx) * Qabs (maxy - miny).
Proof.
  unfold polygon_area. rewrite shoelace_box, !Qabs_Qmult.
  change (Qabs 2) with 2. field.
Qed.

Lemma Qabs_max_min (x y : Q) : Qabs (Qmax x y - Qmin x y) == Qabs (y - x).
Proof.
  destruct (Qlt_le_dec x y) as [H|H].
  - rewrite (Q.max_r x y), (Q.min_l x y) by (now apply Qlt_le_weak). reflexivity.
  - rewrite (Q.max_l x y), (Q.min_r x y) by assumption.
    setoid_replace (y - x) with (- (x - y)) by ring. now rewrite Qabs_opp.
Qed.

Lemma bounds_box (minx miny maxx maxy : Q) :
  exists bx by_ Bx By_,
    bounds (box minx miny maxx maxy) = Some (bx, by_, Bx, By_) /\
    bx == Qmin minx maxx /\ by_ == Qmin miny maxy /\
    Bx == Qmax minx maxx /\ By_ == Qmax miny maxy.
Proof.
  do 4 eexists. split; [reflexivity|]. cbn [fst snd].
  repeat split; minmax_cases; lra.
Qed.

(** C3. The transform is applied in the same way to the two corners, and
    the polygon built from the four coordinates is the rectangle spanned by
    their minima and maxima per axis, for every transform: it has the
    corners, the bounds and the area of that rectangle.  The code takes no
    minimum or maximum itself, so only the order in which the ring lists
    the corners depends on the sign convention; it is the order of the
    min/max ring when the second corner lies to the right of and below the
    first one (a north-up transform). *)
Theorem project_same_rectangle (transform : Affine) (x1 y1 x2 y2 : Q) :
  let p1 := apply transform (x1, y1) in
  let p2 := apply transform (x2, y2) in
  let poly := project transform (x1, y1, x2, y2) in
  let rect := project_minmax transform (x1, y1, x2, y2) in
  poly = box (fst p1) (snd p2) (fst p2) (snd p1) /\
  same_vertices poly rect /\
  (exists bx by_ Bx By_,
      bounds poly = Some (bx, by_, Bx, By_) /\
      bx == Qmin (fst p1) (fst p2) /\ by_ == Qmin (snd p2) (snd p1) /\
      Bx == Qmax (fst p1) (fst p2) /\ By_ == Qmax (snd p2) (snd p1)) /\
  polygon_area poly == polygon_area rect /\
  (fst p1 <= fst p2 -> snd p2 <= snd p1 -> ring_eq poly rect).
Proof.
  intros p1 p2 poly rect.
  assert (Hpoly : poly = box (fst p1) (snd p2) (fst p2) (snd p1)) by reflexivity.
  assert (Hrect : rect = box (Qmin (fst p1) (fst p2)) (Qmin (snd p2) (snd p1))
                             (Qmax (fst p1) (fst p2)) (Qmax (snd p2) (snd p1)))
    by reflexivity.
  rewrite Hpoly, Hrect. clear Hpoly Hrect poly rect.
  generalize (fst p1) (snd p1) (fst p2) (snd p2). clear. intros u1 v1 u2 v2.
  split; [reflexivity|]. split; [|split; [|split]].
  - intros p. rewrite !box_vertices.
    destruct (Qlt_le_dec u1 u2) as [Hu|Hu], (Qlt_le_dec v2 v1) as [Hv|Hv];
      try apply Qlt_le_weak in Hu; try apply Qlt_le_weak in Hv.
    + rewrite (Q.min_l u1 u2), (Q.max_r u1 u2), (Q.min_l v2 v1), (Q.max_r v2 v1)
        by assumption. tauto.
    + rewrite (Q.min_l u1 u2), (Q.max_r u1 u2), (Q.min_r v2 v1), (Q.max_l v2 v1)
        by assumption. tauto.
    + rewrite (Q.min_r u1 u2), (Q.max_l u1 u2), (Q.min_l v2 v1), (Q.max_r v2 v1)
        by assumption. tauto.
    + rewrite (Q.min_r u1 u2), (Q.max_l u1 u2), (Q.min_r v2 v1), (Q.max_l v2 v1)
        by assumption. tauto.
  - apply bounds_box.
  - rewrite !polygon_area_box, !Qabs_max_min. reflexivity.
  - intros Hu Hv. unfold ring_eq, box, point_eq.
    repeat constructor; simpl;
      rewrite ?(Q.min_l u1 u2), ?(Q.max_r u1 u2), ?(Q.min_l v2 v1), ?(Q.max_r v2 v1)
        by assumption; reflexivity.
Qed.

(** The north-up transform of scale 1 sends the pixel box (0, 0, 10, 10)
    to the ring of the rectangle from (0, -10) to (10, 0). *)
Lemma project_same_rectangle_witness :
  ring_eq (project (mkAffine 1 0 0 0 (-1) 0) (0, 0, 10, 10))
          (project_minmax (mkAffine 1 0 0 0 (-1) 0) (0, 0, 10, 10)).
Proof.
  apply (project_same_rectangle (mkAffine 1 0 0 0 (-1) 0) 0 0 10 10).
  - vm_compute. discriminate.
  - vm_compute. discriminate.
Defined.

(** The pixel box (0, 0, 10, 10) has the extent (0, 0)-(10, 10) under the
    identity transform and (0, -10)-(10, 0) under the north-up one. *)
Example project_extent_identity_and_north_up :
  bounds (project (mkAffine 1 0 0 0 1 0) (0, 0, 10, 10)) = Some (0, 0, 10, 10) /\
  bounds (project (mkAffine 1 0 0 0 (-1) 0) (0, 0, 10, 10)) = Some (0, -10, 10, 0).
Proof. split; vm_compute; reflexivity. Qed.

(** The order of the corners does depend on the sign convention: with the
    identity transform (y not flipped) the ring of the pixel box
    (0, 0, 10, 10) runs through the corners the other way round than the
    ring built from the minima and maxima. *)
Lemma project_is_not_minmax_ring :
  let transform := mkAffine 1 0 0 0 1 0 in
  ~ ring_eq (project transform (0, 0, 10, 10))
            (project_minmax transform (0, 0, 10, 10)).
Proof.
  cbv zeta. intros H. inversion H as [|p q r s Hpq _]; subst.
  destruct Hpq as [_ Hy]. vm_compute in Hy. discriminate.
Qed.

End GeometryFacts.

(** ** The area normaliser and the metrics record *)

Module PipelineFacts.

Import Exact Geometry Pipeline Spec Aux ExactFacts.
Open Scope Q_scope.

Lemma map2_map_r {A B C : Type} (f : A -> B -> C) (g : A -> B) (l : list A) :
  map2 f l (map g l) = map (fun x => f x (g x)) l.
Proof. induction l as [|x t IH]; simpl; [reflexivity|now rewrite IH]. Qed.

Lemma Qlt_bool_iff (x y : Q) : Qlt_bool x y = true <-> x < y.
Proof.
  unfold Qlt_bool. rewrite negb_true_iff. split.
  - intros H. apply Qnot_le_lt. intros Hle. apply Qle_bool_iff in Hle. congruence.
  - intros H. destruct (Qle_bool y x) eqn:E; [|reflexivity].
    apply Qle_bool_iff in E. exfalso. apply (Qlt_not_le _ _ H E).
Qed.

Section Collaborators.

Variable estimate_utm_crs : list polygon -> option crs.
Variable transform_point : crs -> point -> point.

(** What one run of the normaliser does: the outcome and the calls. *)
Lemma run_area_normalizer (gdf : list GeoDetection) :
  run (area_normalizer estimate_utm_crs transform_point gdf) =
  let n := length gdf in
  match estimate_utm_crs (map geometry gdf) with
  | None => (Raised, [EstimateUtmCrs n])
  | Some utm =>
      (Ok (map (measured transform_point utm) (kept transform_point utm gdf)),
       [EstimateUtmCrs n; ToCrs utm n; GeometryArea n; GeometryArea n])
  end.
Proof.
  unfold run, area_normalizer, do_estimate_utm_crs, to_crs, geometry_area,
    bind, call, ret, raise.
  cbn [app]. destruct (estimate_utm_crs (map geometry gdf)) as [utm|];
    [|reflexivity].
  cbn [app]. fold (reprojected transform_point utm).
  rewrite (map2_map_r mkAreaDetection).
  rewrite !length_map, !map_map. cbn [row].
  f_equal. f_equal. unfold kept.
  induction gdf as [|r t IH]; [reflexivity|].
  cbn [map select filter]. change (geometry (reprojected transform_point utm r))
    with (map (transform_point utm) (geometry r)).
  fold (planar_area transform_point utm r).
  destruct (Qlt_bool 1 (planar_area transform_point utm r)); cbn [map];
    rewrite IH; reflexivity.
Qed.

(** On an empty frame the normaliser does not return early: it asks for
    the UTM estimate first, and what follows is decided by that call. *)
Lemma area_normalizer_empty_frame :
  run (area_normalizer estimate_utm_crs transform_point []) =
  match estimate_utm_crs [] with
  | None => (Raised, [EstimateUtmCrs 0])
  | Some utm =>
      (Ok [], [EstimateUtmCrs 0; ToCrs utm 0; GeometryArea 0; GeometryArea 0])
  end.
Proof. rewrite run_area_normalizer. reflexivity. Qed.

Lemma kept_iff (utm : crs) (gdf : list GeoDetection) (r : GeoDetection) :
  In r (kept transform_point utm gdf) <->
  In r gdf /\ 1 < planar_area transform_point utm r.
Proof. unfold kept. rewrite filter_In, Qlt_bool_iff. reflexivity. Qed.

(** C7. When the UTM estimate answers, the normaliser returns, in order,
    the rows whose planar area in the projected CRS is greater than 1: a
    row is dropped exactly when that area is at most 1, and every row
    returned carries the class and the confidence of the row it comes
    from, with that area in its area column. *)
Theorem area_normalizer_filter (gdf : list GeoDetection) (utm : crs) :
  estimate_utm_crs (map geometry gdf) = Some utm ->
  exists out log,
    run (area_normalizer estimate_utm_crs transform_point gdf) = (Ok out, log) /\
    out = map (measured transform_point utm) (kept transform_point utm gdf) /\
    (forall r, In r gdf ->
               (~ In r (kept transform_point utm gdf) <->
                planar_area transform_point utm r <= 1)) /\
    map (fun d => (class (row d), confidence (row d))) out =
    map (fun r => (class r, confidence r)) (kept transform_point utm gdf) /\
    map area out = map (planar_area transform_point utm) (kept transform_point utm gdf).
Proof.
  intros Hutm. do 2 eexists. split.
  - rewrite run_area_normalizer, Hutm. reflexivity.
  - split; [reflexivity|]. split; [|split].
    + intros r Hr. rewrite kept_iff. split.
      * intros H. apply Qnot_lt_le. intros Hlt. apply H. now split.
      * intros Hle [_ Hlt]. apply (Qlt_not_le _ _ Hlt Hle).
    + rewrite map_map. reflexivity.
    + rewrite map_map. reflexivity.
Qed.

Variable sqrt : Q -> Q.

Lemma np_sum_map_big (g : Q -> Q) (l : list Q) (k : nat) :
  np_sum (map g l) == big_sum (fun i => g (nth (i - S k) l 0)) (S k) (length l).
Proof.
  revert k. induction l as [|x t IH]; intros k.
  - reflexivity.
  - cbn [map length big_sum]. rewrite np_sum_cons.
    replace (S k - S k)%nat with O by lia. cbn [nth].
    rewrite (IH (S k)). apply Qplus_comp; [reflexivity|].
    apply big_sum_ext. intros i Hi.
    replace (i - S k)%nat with (S (i - S (S k))) by lia. reflexivity.
Qed.

(** The expression of line 120 on a column of areas: 0 below two
    entries, the root of the sample variance from two entries on. *)
Lemma calc_desvio_padrao_cases (areas : list Q) :
  ((length areas < 2)%nat -> calc_desvio_padrao sqrt areas = Some 0) /\
  ((2 <= length areas)%nat ->
   exists v, v == sample_variance areas /\
             calc_desvio_padrao sqrt areas = Some (sqrt v)).
Proof.
  unfold calc_desvio_padrao. split; intros Hn.
  - destruct (Nat.ltb_spec 1 (length areas)) as [H|H]; [lia|reflexivity].
  - destruct (Nat.ltb_spec 1 (length areas)) as [H|H]; [|lia].
    unfold series_std, series_var, series_mean.
    assert (Hn1 : 2 <= of_nat (length areas)).
    { unfold of_nat. change 2 with (inject_Z 2). rewrite <- Zle_Qle. lia. }
    fold (of_nat (length areas)).
    rewrite (fdiv_some (np_sum areas) (of_nat (length areas))) by lra.
    assert (Hd : inject_Z (Z.of_nat (length areas) - 1) == of_nat (length areas) - 1).
    { unfold of_nat, Z.sub. rewrite inject_Z_plus, inject_Z_opp. reflexivity. }
    rewrite fdiv_some by (rewrite Hd; lra).
    eexists. split; [|reflexivity].
    unfold sample_variance. rewrite Hd.
    apply Qmult_comp; [|reflexivity].
    etransitivity; [apply (np_sum_map_big _ areas 0)|].
    apply big_sum_ext. intros i _. unfold nth1.
    rewrite (np_sum_big areas). fold (nth1 areas).
    simpl. ring.
Qed.

Lemma total_area_ha_nonneg (dt : Raster.dtype) (img : Raster.image) (gsd : Q) :
  0 <= Raster.total_area_ha dt img gsd.
Proof.
  unfold Raster.total_area_ha. rewrite RasterFacts.valid_count_filter.
  assert (Hc : 0 <= inject_Z (Z.of_nat (length
            (filter (fun p => (0 <? Raster.band_sum dt p)%Z) (concat img))))).
  { change 0 with (inject_Z 0). rewrite <- Zle_Qle. lia. }
  apply Qle_shift_div_l; [reflexivity|]. nra.
Qed.

(** The run of [main]: the normaliser, then the record. *)
Lemma run_main (dt : Raster.dtype) (img : Raster.image) (transform : Affine)
      (detections : list Detection) (gsd : Q) :
  run (main estimate_utm_crs transform_point sqrt dt img transform detections gsd) =
  match run (area_normalizer estimate_utm_crs transform_point
                             (vectorize transform detections)) with
  | (Ok gdf, log) =>
      let n := Z.of_nat (length gdf) in
      let ha := Raster.total_area_ha dt img gsd in
      (Ok (gdf, mkMetrics n ha (calc_detections_per_ha n ha)
                          (calc_desvio_padrao sqrt (map area gdf))
                          (calculate_gini (map area gdf))
                          (calculate_pv50 (map area gdf))), log)
  | (Raised, log) => (Raised, log)
  end.
Proof.
  unfold run, main, bind at 1.
  destruct (area_normalizer _ _ _ []) as [[gdf|] log]; reflexivity.
Qed.

(** C9. When the UTM estimate answers, [main] produces a record whose
    [total_detections] is the number of rows that passed the area filter,
    and whose [detections_per_ha] is total_detections / total_area_ha when
    total_area_ha is positive and 0 when total_area_ha is 0; the area is
    never negative, and no division by zero takes place. *)
Theorem main_detection_rate (dt : Raster.dtype) (img : Raster.image)
        (transform : Affine) (detections : list Detection) (gsd : Q) (utm : crs) :
  estimate_utm_crs (map geometry (vectorize transform detections)) = Some utm ->
  exists out m log,
    run (main estimate_utm_crs transform_point sqrt dt img transform detections gsd)
    = (Ok (out, m), log) /\
    out = map (measured transform_point utm)
              (kept transform_point utm (vectorize transform detections)) /\
    total_detections m =
    Z.of_nat (length (kept transform_point utm (vectorize transform detections))) /\
    total_area_ha m = Raster.total_area_ha dt img gsd /\
    0 <= total_area_ha m /\
    (0 < total_area_ha m ->
     detections_per_ha m = Some (inject_Z (total_detections m) / total_area_ha m)) /\
    (total_area_ha m == 0 -> detections_per_ha m = Some 0).
Proof.
  intros Hutm. rewrite run_main, run_area_normalizer, Hutm. cbv zeta.
  do 3 eexists. split; [reflexivity|]. cbn [total_detections total_area_ha detections_per_ha].
  split; [reflexivity|]. split; [now rewrite length_map|].
  split; [reflexivity|]. split; [apply total_area_ha_nonneg|].
  unfold calc_detections_per_ha. split.
  - intros Hpos. pose proof (proj2 (Qlt_bool_iff _ _) Hpos) as Hb. rewrite Hb.
    apply fdiv_some. lra.
  - intros Hz. destruct (Qlt_bool 0 _) eqn:E; [|reflexivity].
    apply Qlt_bool_iff in E. lra.
Qed.

(** C5, at the empty frame.  When the detector finds nothing, the frame
    given to the normaliser is empty and the UTM estimate raises on it.
    The normaliser has asked for the estimate already: the run raises
    there, and [main] with it, instead of returning an empty result. *)
Theorem area_normalizer_empty_frame_raises :
  estimate_utm_crs [] = None ->
  run (area_normalizer estimate_utm_crs transform_point []) = (Raised, [EstimateUtmCrs 0]) /\
  run (area_normalizer estimate_utm_crs transform_point []) <> (Ok [], []) /\
  forall (dt : Raster.dtype) (img : Raster.image) (transform : Affine) (gsd : Q),
    run (main estimate_utm_crs transform_point sqrt dt img transform [] gsd)
    = (Raised, [EstimateUtmCrs 0]).
Proof.
  intros Hraise.
  assert (Hrun : run (area_normalizer estimate_utm_crs transform_point [])
                 = (Raised, [EstimateUtmCrs 0])).
  { rewrite run_area_normalizer. cbn [map length]. now rewrite Hraise. }
  split; [exact Hrun|]. split; [rewrite Hrun; discriminate|].
  intros dt img transform gsd. rewrite run_main. cbn [vectorize map].
  now rewrite Hrun.
Qed.

(** C8. When the UTM estimate answers, the record that [main] produces
    has as [desvio_padrao] the sample standard deviation (denominator
    n - 1) of the [area] column of the rows that passed the filter, n
    being their number, which is [total_detections]; with fewer than two
    such rows it is 0, and no deviation is computed. *)
Theorem main_desvio_padrao (dt : Raster.dtype) (img : Raster.image)
        (transform : Affine) (detections : list Detection) (gsd : Q) (utm : crs) :
  estimate_utm_crs (map geometry (vectorize transform detections)) = Some utm ->
  exists out m log,
    run (main estimate_utm_crs transform_point sqrt dt img transform detections gsd)
    = (Ok (out, m), log) /\
    out = map (measured transform_point utm)
              (kept transform_point utm (vectorize transform detections)) /\
    total_detections m = Z.of_nat (length out) /\
    ((length out < 2)%nat -> desvio_padrao m = Some 0) /\
    ((2 <= length out)%nat ->
     exists v, v == sample_variance (map area out) /\
               desvio_padrao m = Some (sqrt v)).
Proof.
  intros Hutm. rewrite run_main, run_area_normalizer, Hutm. cbv zeta.
  do 3 eexists. split; [reflexivity|]. cbn [total_detections desvio_padrao].
  split; [reflexivity|]. split; [reflexivity|].
  set (out := map (measured transform_point utm) _).
  destruct (calc_desvio_padrao_cases (map area out)) as [Hlt Hge].
  rewrite length_map in Hlt, Hge. split; assumption.
Qed.

End Collaborators.

Lemma area_normalizer_filter_witness :
  exists out log,
    run (area_normalizer utm_or_raise same_point (vectorize north_up two_boxes))
    = (Ok out, log) /\
    map (fun d => (class (row d), confidence (row d))) out = [(0%Z, 9 # 10)] /\
    length out = 1%nat.
Proof.
  destruct (area_normalizer_filter utm_or_raise same_point
              (vectorize north_up two_boxes) 32722%Z eq_refl)
    as (out & log & Hrun & Hout & _ & Hattr & _).
  exists out, log. split; [exact Hrun|]. split.
  - rewrite Hattr. reflexivity.
  - rewrite Hout. reflexivity.
Defined.

Lemma calc_desvio_padrao_cases_witness :
  calc_desvio_padrao sqrt_of_square [5] = Some 0 /\
  calc_desvio_padrao sqrt_of_square [] = Some 0 /\
  calc_desvio_padrao sqrt_of_square [1; 3; 5] = Some 2.
Proof.
  split; [|split].
  - apply (proj1 (calc_desvio_padrao_cases sqrt_of_square [5])). simpl. lia.
  - apply (proj1 (calc_desvio_padrao_cases sqrt_of_square [])). simpl. lia.
  - destruct (proj2 (calc_desvio_padrao_cases sqrt_of_square [1; 3; 5]))
      as (v & Hv & Hstd); [simpl; lia|].
    rewrite Hstd. f_equal. unfold sqrt_of_square.
    assert (H4 : v == 4) by (rewrite Hv; reflexivity).
    assert (H0 : Qeq_bool v 0 = false).
    { destruct (Qeq_bool v 0) eqn:E; [|reflexivity].
      apply Qeq_bool_iff in E. rewrite H4 in E. discriminate. }
    assert (H1 : Qeq_bool v 1 = false).
    { destruct (Qeq_bool v 1) eqn:E; [|reflexivity].
      apply Qeq_bool_iff in E. rewrite H4 in E. discriminate. }
    apply Qeq_bool_iff in H4. now rewrite H0, H1, H4.
Defined.

Lemma main_detection_rate_witness :
  exists out m log,
    run (main utm_or_raise same_point sqrt_of_square Raster.uint8
              [[(255, 255, 255)%Z]] north_up two_boxes 100)
    = (Ok (out, m), log) /\
    length two_boxes = 2%nat /\
    total_detections m = 1%Z /\
    detections_per_ha m = Some (inject_Z (total_detections m) / total_area_ha m).
Proof.
  destruct (main_detection_rate utm_or_raise same_point sqrt_of_square Raster.uint8
              [[(255, 255, 255)%Z]] north_up two_boxes 100 32722%Z eq_refl)
    as (out & m & log & Hrun & _ & Hn & Hha & _ & Hrate & _).
  exists out, m, log. split; [exact Hrun|]. split; [reflexivity|].
  split; [rewrite Hn; reflexivity|].
  apply Hrate. rewrite Hha. reflexivity.
Defined.

Lemma area_normalizer_empty_frame_raises_witness :
  run (area_normalizer utm_or_raise same_point []) = (Raised, [EstimateUtmCrs 0]) /\
  run (main utm_or_raise same_point sqrt_of_square Raster.uint8
            [[(255, 255, 255)%Z]] north_up [] 100)
  = (Raised, [EstimateUtmCrs 0]).
Proof.
  destruct (area_normalizer_empty_frame_raises utm_or_raise same_point
              sqrt_of_square eq_refl) as (Hn & _ & Hm).
  split; [exact Hn|apply Hm].
Defined.

Lemma main_desvio_padrao_witness :
  exists out m log,
    run (main utm_or_raise same_point sqrt_of_square Raster.uint8
              [[(255, 255, 255)%Z]] north_up four_boxes 100)
    = (Ok (out, m), log) /\
    length four_boxes = 4%nat /\
    Forall2 Qeq (map area out) [2; 4; 6] /\
    total_detections m = 3%Z /\
    desvio_padrao m = Some 2.
Proof.
  destruct (main_desvio_padrao utm_or_raise same_point sqrt_of_square Raster.uint8
              [[(255, 255, 255)%Z]] north_up four_boxes 100 32722%Z eq_refl)
    as (out & m & log & Hrun & Hout & Hn & _ & Hstd).
  exists out, m, log. split; [exact Hrun|]. split; [reflexivity|].
  split; [rewrite Hout; repeat constructor|].
  split; [rewrite Hn, Hout; reflexivity|].
  destruct Hstd as (v & Hv & Hd); [rewrite Hout; simpl; lia|].
  rewrite Hd. f_equal. unfold sqrt_of_square.
  assert (H4 : v == 4) by (rewrite Hv, Hout; reflexivity).
  assert (H0 : Qeq_bool v 0 = false).
  { destruct (Qeq_bool v 0) eqn:E; [|reflexivity].
    apply Qeq_bool_iff in E. rewrite H4 in E. discriminate. }
  assert (H1 : Qeq_bool v 1 = false).
  { destruct (Qeq_bool v 1) eqn:E; [|reflexivity].
    apply Qeq_bool_iff in E. rewrite H4 in E. discriminate. }
  apply Qeq_bool_iff in H4. now rewrite H0, H1, H4.
Defined.

End PipelineFacts.

(** ** The statistics in binary64 *)

Module Binary64Facts.

(** The quoted arrays give the same values in binary64: every intermediate
    result is a small integer or a dyadic quotient. *)
Example gini_binary64_equal_areas :
  Binary64.calculate_gini [4; 4; 4; 4]%float = 0%float.
Proof. vm_compute. reflexivity. Qed.

(** On the empty array both quotients are 0 / 0: the result is not a
    number. *)
Example gini_pv50_binary64_empty :
  PrimFloat.is_nan (Binary64.calculate_gini []) = true /\
  PrimFloat.is_nan (Binary64.calculate_pv50 []) = true.
Proof. split; vm_compute; reflexivity. Qed.

(** C6, as stated, fails in binary64.  Five areas equal to the binary64
    number nearest to 1.3: the weighted products -5.2, -2.6, 0, 2.6, 5.2 are
    added from the left, the partial sum -7.8 is rounded, and the quotient
    is about -2.7e-17: a negative number, and not 0. *)
Lemma gini_binary64_negative_on_equal_areas :
  let a := 0x1.4cccccccccccdp+0%float in
  PrimFloat.ltb 0 a = true /\
  PrimFloat.ltb (Binary64.calculate_gini [a; a; a; a; a]) 0 = true /\
  PrimFloat.eqb (Binary64.calculate_gini [a; a; a; a; a]) 0 = false.
Proof. cbv zeta. repeat split; vm_compute; reflexivity. Qed.

(** C10, as stated, fails in binary64.  Six areas equal to the binary64
    number nearest to 1.3: the sum of three of them is rounded up to
    3.9000000000000004, the total is 7.8, and the result is
    50.000000000000014: greater than 50. *)
Lemma pv50_binary64_exceeds_half :
  let a := 0x1.4cccccccccccdp+0%float in
  PrimFloat.ltb 0 a = true /\
  PrimFloat.ltb 50 (Binary64.calculate_pv50 [a; a; a; a; a; a]) = true.
Proof. cbv zeta. repeat split; vm_compute; reflexivity. Qed.

Example gini_pv50_exact_empty :
  Exact.calculate_gini [] = None /\ Exact.calculate_pv50 [] = None.
Proof. split; reflexivity. Qed.

End Binary64Facts.

(** ** Further properties of the two statistics *)

Section SortMaps.
Context {A : Type}.
Variable leb : A -> A -> bool.
Variable f : A -> A.
Hypothesis leb_f : forall x y, leb (f x) (f y) = leb x y.

Lemma insert_map (x : A) (l : list A) :
  insert leb (f x) (map f l) = map f (insert leb x l).
Proof.
  induction l as [|y t IH]; simpl; [reflexivity|].
  rewrite leb_f. destruct (leb x y); simpl; [reflexivity|now rewrite IH].
Qed.

Lemma np_sort_map (l : list A) : np_sort leb (map f l) = map f (np_sort leb l).
Proof.
  induction l as [|x t IH]; simpl; [reflexivity|].
  now rewrite IH, insert_map.
Qed.
End SortMaps.

Module ExactMore.

Import Exact Spec Aux ExactFacts.
Open Scope Q_scope.

Lemma fdiv_none_iff (a b : Q) : fdiv a b = None <-> b == 0.
Proof.
  unfold fdiv. destruct (Qeq_bool b 0) eqn:E.
  - apply Qeq_bool_iff in E. tauto.
  - split; [discriminate|]. intros H. apply Qeq_bool_iff in H. congruence.
Qed.

Lemma of_nat_zero_iff (m : nat) : of_nat m == 0 <-> m = O.
Proof.
  unfold of_nat. change 0 with (inject_Z 0). rewrite inject_Z_injective. lia.
Qed.

Lemma calculate_gini_none_iff (areas : list Q) :
  calculate_gini areas = None <-> np_sum areas == 0.
Proof.
  assert (Hsum : np_sum (sort_areas areas) == np_sum areas)
    by (symmetry; apply np_sum_perm, sort_areas_perm).
  unfold calculate_gini. rewrite fdiv_none_iff, Hsum.
  fold (of_nat (length areas)). split.
  - intros H. apply Qmult_integral in H. destruct H as [H|H]; [|exact H].
    apply of_nat_zero_iff in H. destruct areas; [reflexivity|discriminate].
  - intros H. rewrite H. ring.
Qed.

Lemma calculate_pv50_none_iff (areas : list Q) :
  calculate_pv50 areas = None <-> np_sum areas == 0.
Proof.
  assert (Hsum : np_sum (sort_areas areas) == np_sum areas)
    by (symmetry; apply np_sum_perm, sort_areas_perm).
  unfold calculate_pv50.
  destruct (fdiv _ (np_sum (sort_areas areas))) eqn:E; simpl.
  - split; [discriminate|]. intros H. rewrite <- Hsum in H.
    apply (proj2 (fdiv_none_iff (np_sum (firstn (length (sort_areas areas) / 2)
                                                (sort_areas areas))) _)) in H.
    rewrite H in E. discriminate.
  - rewrite <- Hsum. split; [|reflexivity]. intros _.
    eapply fdiv_none_iff. exact E.
Qed.

(** X1. [calculate_gini] and [calculate_pv50] have no finite value (numpy
    returns nan or inf) on exactly the same arrays: those whose total is
    zero, the empty array among them. *)
Theorem gini_pv50_undefined_iff_zero_total (areas : list Q) :
  (calculate_gini areas = None <-> np_sum areas == 0) /\
  (calculate_pv50 areas = None <-> np_sum areas == 0).
Proof. split; [apply calculate_gini_none_iff|apply calculate_pv50_none_iff]. Qed.

(** *** Change of unit *)

Lemma Qle_bool_scale (k x y : Q) : 0 < k -> Qle_bool (k * x) (k * y) = Qle_bool x y.
Proof.
  intros Hk. destruct (Qle_bool x y) eqn:E.
  - apply Qle_bool_iff. apply Qle_bool_iff in E. now apply Qmult_le_l.
  - destruct (Qle_bool (k * x) (k * y)) eqn:E'; [|reflexivity].
    apply Qle_bool_iff in E'. apply Qmult_le_l in E'; [|exact Hk].
    apply Qle_bool_iff in E'. congruence.
Qed.

Lemma sort_areas_scale (k : Q) (l : list Q) :
  0 < k -> sort_areas (map (Qmult k) l) = map (Qmult k) (sort_areas l).
Proof.
  intros Hk. unfold sort_areas. apply np_sort_map.
  intros x y. now apply Qle_bool_scale.
Qed.

Lemma np_sum_scale (k : Q) (l : list Q) : np_sum (map (Qmult k) l) == k * np_sum l.
Proof.
  induction l as [|x t IH]; simpl.
  - rewrite np_sum_nil. ring.
  - rewrite !np_sum_cons, IH. ring.
Qed.

Lemma rank_fold_scale (k c : Q) (l : list Q) :
  rank_fold c (map (Qmult k) l) == k * rank_fold c l.
Proof.
  revert c. induction l as [|x t IH]; intros c; simpl.
  - ring.
  - rewrite IH. ring.
Qed.

Lemma fdiv_scale (k a b : Q) : ~ k == 0 -> fdiv (k * a) (k * b) =?= fdiv a b.
Proof.
  intros Hk. unfold fdiv.
  destruct (Qeq_bool b 0) eqn:E, (Qeq_bool (k * b) 0) eqn:E'; simpl; auto.
  - apply Qeq_bool_iff in E. assert (H : k * b == 0) by (rewrite E; ring).
    apply Qeq_bool_iff in H. congruence.
  - apply Qeq_bool_iff in E'. apply Qmult_integral in E'.
    destruct E' as [H|H]; [contradiction|].
    apply Qeq_bool_iff in H. congruence.
  - field. split; [|exact Hk]. intros H. apply Qeq_bool_iff in H. congruence.
Qed.

(** The numerator of line 16 on any array of the right length. *)
Lemma gini_numerator_fold (n : nat) (a : list Q) :
  length a = n ->
  np_sum (map2 (fun i x => inject_Z (2 * i - Z.of_nat n - 1) * x) (arange 1 n) a)
  == rank_fold (1 - of_nat n) a.
Proof.
  intros Hlen. subst n. rewrite gini_numerator_rank_fold.
  apply rank_fold_proper. rewrite inject_Z_rank. unfold of_nat.
  change (inject_Z 1) with 1. ring.
Qed.

(** X2. The two statistics do not depend on the unit of area: multiplying
    every area by the same positive factor changes neither the Gini
    coefficient nor PV50. *)
Theorem gini_pv50_scale_invariant (k : Q) (areas : list Q) :
  0 < k ->
  calculate_gini (map (Qmult k) areas) =?= calculate_gini areas /\
  calculate_pv50 (map (Qmult k) areas) =?= calculate_pv50 areas.
Proof.
  intros Hk. assert (Hk0 : ~ k == 0) by lra. split.
  - unfold calculate_gini. rewrite length_map, sort_areas_scale by exact Hk.
    set (n := length areas). set (a := sort_areas areas).
    assert (Hlen : length a = n) by apply sort_areas_length.
    etransitivity; [|apply (fdiv_scale k _ _ Hk0)].
    apply fdiv_proper.
    + rewrite (gini_numerator_fold n (map (Qmult k) a)) by (now rewrite length_map).
      rewrite (gini_numerator_fold n a Hlen). apply rank_fold_scale.
    + rewrite np_sum_scale. ring.
  - unfold calculate_pv50. rewrite sort_areas_scale by exact Hk.
    rewrite length_map, firstn_map.
    apply option_map_proper; [intros x y H; now rewrite H|].
    etransitivity; [|apply (fdiv_scale k _ _ Hk0)].
    apply fdiv_proper; apply np_sum_scale.
Qed.

Lemma gini_pv50_scale_invariant_witness :
  calculate_gini (map (Qmult 10000) [1; 2; 3]) =?= calculate_gini [1; 2; 3] /\
  calculate_pv50 (map (Qmult 10000) [1; 2; 3]) =?= calculate_pv50 [1; 2; 3].
Proof. apply (gini_pv50_scale_invariant 10000 [1; 2; 3]). reflexivity. Defined.

(** *** Order of the input *)

Lemma Qle_bool_Qred (x y : Q) : Qle_bool (Qred x) (Qred y) = Qle_bool x y.
Proof.
  destruct (Qle_bool x y) eqn:E.
  - apply Qle_bool_iff. apply Qred_le. now apply Qle_bool_iff.
  - destruct (Qle_bool (Qred x) (Qred y)) eqn:E'; [|reflexivity].
    apply (proj1 (Qle_bool_iff _ _)) in E'. apply (proj1 (Qred_le _ _)) in E'.
    apply (proj2 (Qle_bool_iff _ _)) in E'. congruence.
Qed.

(** Two ascending arrangements of the same reduced fractions are the same
    list. *)
Lemma sorted_reduced_unique (u v : list Q) :
  Forall (fun q => Qred q = q) u ->
  StronglySorted Qle u -> StronglySorted Qle v -> Permutation u v -> u = v.
Proof.
  intros Hred Hu. revert v. induction Hu as [|x t Ht IH Hx]; intros v Hv Hp.
  - apply Permutation_nil in Hp. now subst.
  - destruct v as [|y w]; [apply Permutation_sym, Permutation_nil in Hp; discriminate|].
    inversion Hv as [|? ? Hw Hy]; subst. inversion Hred as [|? ? Hrx Hrt]; subst.
    assert (Hxy : x <= y).
    { assert (Hin : In y (x :: t))
        by (eapply Permutation_in; [apply Permutation_sym, Hp|now left]).
      destruct Hin as [->|Hin]; [apply Qle_refl|].
      rewrite Forall_forall in Hx. now apply Hx. }
    assert (Hyx : y <= x).
    { assert (Hin : In x (y :: w)) by (eapply Permutation_in; [apply Hp|now left]).
      destruct Hin as [->|Hin]; [apply Qle_refl|].
      rewrite Forall_forall in Hy. now apply Hy. }
    assert (Hry : Qred y = y).
    { assert (Hall : Forall (fun q => Qred q = q) (y :: w))
        by (eapply Permutation_Forall; [exact Hp|now constructor]).
      now inversion Hall. }
    assert (E : x = y).
    { rewrite <- Hrx, <- Hry. apply Qred_complete. now apply Qle_antisym. }
    subst y. f_equal. apply IH; [exact Hrt|exact Hw|].
    now apply Permutation_cons_inv in Hp.
Qed.

Lemma sorted_perm_reduced (u v : list Q) :
  Permutation u v -> map Qred (sort_areas u) = map Qred (sort_areas v).
Proof.
  intros Hp. unfold sort_areas.
  rewrite <- !(np_sort_map Qle_bool Qred Qle_bool_Qred).
  apply sorted_reduced_unique.
  - eapply Permutation_Forall; [apply (np_sort_perm Qle_bool)|].
    apply Forall_forall. intros q Hq. apply in_map_iff in Hq.
    destruct Hq as (r & <- & _). apply Qred_complete, Qred_correct.
  - apply (sort_areas_sorted (map Qred u)).
  - apply (sort_areas_sorted (map Qred v)).
  - eapply perm_trans; [apply Permutation_sym, (np_sort_perm Qle_bool)|].
    eapply perm_trans; [|apply (np_sort_perm Qle_bool)].
    now apply Permutation_map.
Qed.

Lemma map_Qred_Forall2 (u v : list Q) :
  map Qred u = map Qred v -> Forall2 Qeq u v.
Proof.
  revert v. induction u as [|x t IH]; intros [|y w] H; try discriminate.
  - constructor.
  - injection H as Hxy Htw. constructor; [now apply Qred_eq_iff|now apply IH].
Qed.

Lemma np_sum_Forall2 (u v : list Q) : Forall2 Qeq u v -> np_sum u == np_sum v.
Proof.
  induction 1 as [|x y u v Hxy _ IH]; [reflexivity|].
  now rewrite !np_sum_cons, Hxy, IH.
Qed.

Lemma rank_fold_Forall2 (c : Q) (u v : list Q) :
  Forall2 Qeq u v -> rank_fold c u == rank_fold c v.
Proof.
  intros H. revert c. induction H as [|x y u v Hxy _ IH]; intros c; simpl.
  - reflexivity.
  - now rewrite Hxy, IH.
Qed.

Lemma firstn_Forall2 (h : nat) (u v : list Q) :
  Forall2 Qeq u v -> Forall2 Qeq (firstn h u) (firstn h v).
Proof.
  intros H. revert h. induction H as [|x y u v Hxy _ IH]; intros [|h]; simpl;
    constructor; auto.
Qed.

(** X3. The two statistics do not depend on the order in which the areas
    come: on two arrays that are permutations of each other they return the
    same value. *)
Theorem gini_pv50_order_invariant (areas areas' : list Q) :
  Permutation areas areas' ->
  calculate_gini areas =?= calculate_gini areas' /\
  calculate_pv50 areas =?= calculate_pv50 areas'.
Proof.
  intros Hp.
  pose proof (map_Qred_Forall2 _ _ (sorted_perm_reduced areas areas' Hp)) as Hs.
  pose proof (Permutation_length Hp) as Hlen.
  pose proof (sort_areas_length areas) as Hl.
  pose proof (sort_areas_length areas') as Hl'.
  split.
  - unfold calculate_gini. rewrite <- Hlen. apply fdiv_proper.
    + rewrite (gini_numerator_fold (length areas) (sort_areas areas) Hl).
      rewrite (gini_numerator_fold (length areas) (sort_areas areas'))
        by (now rewrite Hl'). now apply rank_fold_Forall2.
    + now rewrite (np_sum_Forall2 _ _ Hs).
  - unfold calculate_pv50. rewrite Hl, Hl', <- Hlen.
    apply option_map_proper; [intros x y H; now rewrite H|].
    apply fdiv_proper; apply np_sum_Forall2; [now apply firstn_Forall2|exact Hs].
Qed.

Lemma gini_pv50_order_invariant_witness :
  calculate_gini [3; 1; 2] =?= calculate_gini [1; 2; 3] /\
  calculate_pv50 [3; 1; 2] =?= calculate_pv50 [1; 2; 3].
Proof.
  apply (gini_pv50_order_invariant [3; 1; 2] [1; 2; 3]).
  apply Permutation_sym. change [3; 1; 2] with ([3] ++ [1; 2]).
  change [1; 2; 3] with ([1; 2] ++ [3]). apply Permutation_app_comm.
Defined.

(** *** The value of the Gini quotient *)

Lemma calculate_gini_value (areas : list Q) :
  areas <> [] -> ~ np_sum areas == 0 ->
  exists g, calculate_gini areas = Some g /\
            g * (of_nat (length areas) * np_sum areas)
            == rank_fold (1 - of_nat (length (sort_areas areas))) (sort_areas areas).
Proof.
  intros Hne Hs.
  assert (Hsum : np_sum (sort_areas areas) == np_sum areas)
    by (symmetry; apply np_sum_perm, sort_areas_perm).
  assert (Hn : ~ of_nat (length areas) == 0).
  { rewrite of_nat_zero_iff. destruct areas; [congruence|discriminate]. }
  assert (Hd : ~ of_nat (length areas) * np_sum areas == 0).
  { intros H. apply Qmult_integral in H. tauto. }
  unfold calculate_gini. fold (of_nat (length areas)).
  rewrite fdiv_some by (now rewrite Hsum).
  eexists. split; [reflexivity|].
  rewrite (gini_numerator_sorted areas), Hsum. field. split; assumption.
Qed.

Lemma sum_eq_const_inv (x : Q) (l : list Q) :
  Forall (Qle x) l -> np_sum l == of_nat (length l) * x -> Forall (Qeq x) l.
Proof.
  induction 1 as [|y t Hy Ht IH]; intros Hs; [constructor|].
  cbn [length] in Hs. rewrite of_nat_S, np_sum_cons in Hs.
  pose proof (sum_ge_const x t Ht) as Hge.
  assert (Hyx : x == y) by (apply Qle_antisym; lra).
  constructor; [exact Hyx|]. apply IH. lra.
Qed.

(** An ascending array whose rank-weighted sum vanishes is constant. *)
Lemma rank_fold_zero_const (l : list Q) :
  StronglySorted Qle l -> rank_fold (1 - of_nat (length l)) l == 0 ->
  exists v, Forall (Qeq v) l.
Proof.
  induction 1 as [|x t Hs IH Hall]; intros Hz.
  - exists 0. constructor.
  - exists x. constructor; [reflexivity|].
    cbn [length rank_fold] in Hz.
    rewrite (rank_fold_proper (1 - of_nat (S (length t)) + 2)
                              (1 - of_nat (length t) + 1) t) in Hz
      by (rewrite of_nat_S; ring).
    rewrite rank_fold_offset, of_nat_S in Hz.
    pose proof (sum_ge_const x t Hall) as Hsum.
    pose proof (rank_fold_sorted_nonneg t Hs) as Hr.
    apply sum_eq_const_inv; [exact Hall|]. lra.
Qed.

(** X4. On a non-empty array whose total is not zero, the Gini coefficient
    is 0 exactly when all areas are equal. *)
Theorem gini_zero_iff_equal_areas (areas : list Q) :
  areas <> [] -> ~ np_sum areas == 0 ->
  (calculate_gini areas =?= Some 0 <-> exists v, Forall (Qeq v) areas).
Proof.
  intros Hne Hs.
  destruct (calculate_gini_value areas Hne Hs) as (g & Hg & Hval).
  rewrite Hg. simpl.
  assert (Hn : ~ of_nat (length areas) == 0).
  { rewrite of_nat_zero_iff. destruct areas; [congruence|discriminate]. }
  split.
  - intros H0. rewrite H0 in Hval.
    destruct (rank_fold_zero_const (sort_areas areas) (sort_areas_sorted areas))
      as [v Hv]; [rewrite <- Hval; ring|].
    exists v. eapply Permutation_Forall;
      [apply Permutation_sym, sort_areas_perm|exact Hv].
  - intros [v Hv].
    rewrite (rank_fold_const v (sort_areas areas)) in Hval
      by (eapply Permutation_Forall; [apply sort_areas_perm|exact Hv]).
    apply Qmult_integral in Hval. destruct Hval as [H|H]; [exact H|].
    apply Qmult_integral in H. tauto.
Qed.

Lemma gini_zero_iff_equal_areas_witness :
  calculate_gini [2; 2; 2] =?= Some 0 <-> exists v, Forall (Qeq v) [2; 2; 2].
Proof.
  apply (gini_zero_iff_equal_areas [2; 2; 2]).
  - discriminate.
  - vm_compute. discriminate.
Defined.

Lemma calculate_gini_bounds (areas : list Q) :
  areas <> [] -> Forall (Qle 0) areas -> 0 < np_sum areas ->
  exists g, calculate_gini areas = Some g /\
            0 <= g /\ g <= 1 - 1 / of_nat (length areas) /\ g < 1.
Proof.
  intros Hne Hpos Htot.
  destruct (calculate_gini_value areas Hne) as (g & Hg & Hval); [lra|].
  exists g. split; [exact Hg|].
  assert (Hall : Forall (Qle 0) (sort_areas areas))
    by (eapply Permutation_Forall; [apply sort_areas_perm|exact Hpos]).
  pose proof (rank_fold_upper (1 - of_nat (length (sort_areas areas)))
                              (sort_areas areas) Hall) as Hup.
  pose proof (rank_fold_sorted_nonneg (sort_areas areas) (sort_areas_sorted areas))
    as Hlow.
  rewrite <- Hval in Hup, Hlow. rewrite sort_areas_length in Hup.
  rewrite <- (np_sum_perm _ _ (sort_areas_perm areas)) in Hup.
  assert (Hn : 1 <= of_nat (length areas)).
  { apply of_nat_pos. destruct areas; [congruence|simpl; lia]. }
  set (n := of_nat (length areas)) in *. set (s := np_sum areas) in *.
  assert (Hd : 0 < n * s) by nra.
  assert (H0 : 0 <= g).
  { apply Qmult_lt_0_le_reg_r with (z := n * s); [exact Hd|]. lra. }
  assert (Hle : g <= 1 - 1 / n).
  { apply Qmult_lt_0_le_reg_r with (z := n * s); [exact Hd|].
    setoid_replace ((1 - 1 / n) * (n * s)) with ((n - 1) * s) by (field; lra).
    lra. }
  split; [exact H0|]. split; [exact Hle|].
  assert (Hinv : 0 < 1 / n) by (apply Qlt_shift_div_l; lra).
  lra.
Qed.

(** One positive area after [k] zero areas: the array is sorted already,
    its sum is the positive area, and only the last rank contributes. *)
Lemma sort_areas_zeros_then (k : nat) (x : Q) :
  0 < x -> sort_areas (repeat 0 k ++ [x]) = repeat 0 k ++ [x].
Proof.
  intros Hx. unfold sort_areas, np_sort.
  induction k as [|k IH]; [reflexivity|].
  cbn [repeat app fold_right]. rewrite IH.
  destruct k as [|k]; cbn [repeat app insert].
  - assert (H : Qle_bool 0 x = true) by (apply Qle_bool_iff; lra).
    now rewrite H.
  - reflexivity.
Qed.

Lemma np_sum_zeros_then (k : nat) (x : Q) : np_sum (repeat 0 k ++ [x]) == x.
Proof.
  induction k as [|k IH];
    [cbn [repeat app]; rewrite np_sum_cons, np_sum_nil; ring|].
  cbn [repeat app]. rewrite np_sum_cons, IH. ring.
Qed.

Lemma rank_fold_zeros_then (c : Q) (k : nat) (x : Q) :
  rank_fold c (repeat 0 k ++ [x]) == (c + 2 * of_nat k) * x.
Proof.
  revert c. induction k as [|k IH]; intros c.
  - cbn [repeat app rank_fold]. rewrite of_nat_0. ring.
  - cbn [repeat app rank_fold]. rewrite IH, of_nat_S. ring.
Qed.

Lemma calculate_gini_zeros_then (k : nat) (x : Q) :
  0 < x -> calculate_gini (repeat 0 k ++ [x]) =?= Some (1 - 1 / of_nat (S k)).
Proof.
  intros Hx.
  assert (Hlen : length (repeat 0 k ++ [x]) = S k)
    by (rewrite length_app, repeat_length; simpl; lia).
  assert (Hne : repeat 0 k ++ [x] <> []) by (intros H; rewrite H in Hlen; discriminate).
  pose proof (np_sum_zeros_then k x) as Hs.
  destruct (calculate_gini_value _ Hne) as (g & Hg & Hval); [rewrite Hs; lra|].
  rewrite Hg. cbn [res_eq].
  rewrite (sort_areas_zeros_then k x Hx), Hlen, rank_fold_zeros_then, Hs in Hval.
  assert (Hn : 1 <= of_nat (S k)) by (apply of_nat_pos; lia).
  rewrite of_nat_S in Hval, Hn |- *.
  set (n := of_nat k) in *.
  assert (Hd : 0 < (n + 1) * x) by nra.
  assert (Hq : (1 - 1 / (n + 1)) * ((n + 1) * x) == n * x) by (field; lra).
  assert (Hgq : g * ((n + 1) * x) == (1 - 1 / (n + 1)) * ((n + 1) * x)).
  { rewrite Hq, Hval. ring. }
  apply Qmult_inj_r in Hgq; [exact Hgq|lra].
Qed.

(** X5. For a non-empty array of non-negative areas with a positive total
    the Gini coefficient is at most 1 - 1/n, so it never reaches 1; the
    bound is met when one area is positive and all the others are zero,
    as on [0, 0, 0, 5], where the coefficient is 3/4. *)
Theorem gini_below_one :
  (forall areas : list Q,
      areas <> [] -> Forall (Qle 0) areas -> 0 < np_sum areas ->
      exists g, calculate_gini areas = Some g /\
                g <= 1 - 1 / of_nat (length areas) /\ g < 1) /\
  (forall (k : nat) (x : Q),
      0 < x ->
      length (repeat 0 k ++ [x]) = S k /\
      calculate_gini (repeat 0 k ++ [x]) =?= Some (1 - 1 / of_nat (S k))) /\
  calculate_gini [0; 0; 0; 5] =?= Some (3 # 4).
Proof.
  split; [|split].
  - intros areas Hne Hpos Htot.
    destruct (calculate_gini_bounds areas Hne Hpos Htot) as (g & Hg & _ & Hle & Hlt).
    exists g. auto.
  - intros k x Hx. split.
    + rewrite length_app, repeat_length. simpl. lia.
    + now apply calculate_gini_zeros_then.
  - reflexivity.
Qed.

Lemma gini_below_one_witness :
  (exists g, calculate_gini [0; 0; 0; 5] = Some g /\
             g <= 1 - 1 / of_nat (length [0; 0; 0; 5]) /\ g < 1) /\
  calculate_gini (repeat 0 3 ++ [5]) =?= Some (1 - 1 / of_nat 4).
Proof.
  split.
  - apply (proj1 gini_below_one [0; 0; 0; 5]).
    + discriminate.
    + repeat constructor; discriminate.
    + reflexivity.
  - apply (proj1 (proj2 gini_below_one) 3%nat 5). reflexivity.
Defined.

(** *** The share of the smaller half *)

Lemma Forall_firstn {A : Type} (P : A -> Prop) (h : nat) (l : list A) :
  Forall P l -> Forall P (firstn h l).
Proof.
  intros H. rewrite <- (firstn_skipn h l) in H. now apply Forall_app in H.
Qed.

Lemma half_le (n : nat) : (n / 2 <= n)%nat.
Proof. apply Nat.Div0.div_le_upper_bound. lia. Qed.

(** X6. On n areas that are all equal (and not zero) PV50 is
    100 * floor(n/2) / n: exactly 50 when n is even, less when n is odd. *)
Theorem pv50_equal_areas (v : Q) (areas : list Q) :
  areas <> [] -> ~ v == 0 -> Forall (Qeq v) areas ->
  calculate_pv50 areas
  =?= Some (100 * of_nat (length areas / 2) / of_nat (length areas)) /\
  (Nat.even (length areas) = true -> calculate_pv50 areas =?= Some 50).
Proof.
  intros Hne Hv Hall.
  assert (Ha : Forall (Qeq v) (sort_areas areas))
    by (eapply Permutation_Forall; [apply sort_areas_perm|exact Hall]).
  pose proof (sort_areas_length areas) as Hlen.
  assert (Hn : ~ of_nat (length areas) == 0).
  { rewrite of_nat_zero_iff. destruct areas; [congruence|discriminate]. }
  assert (Hval : calculate_pv50 areas
                 =?= Some (100 * of_nat (length areas / 2) / of_nat (length areas))).
  { unfold calculate_pv50. rewrite Hlen.
    pose proof (sum_eq_const v _ (Forall_firstn _ (length areas / 2) _ Ha)) as Hh.
    rewrite firstn_length_le in Hh by (rewrite Hlen; apply half_le).
    pose proof (sum_eq_const v _ Ha) as Hs. rewrite Hlen in Hs.
    rewrite fdiv_some.
    - cbn [option_map res_eq]. rewrite Hh, Hs. field. split; assumption.
    - rewrite Hs. intros H. apply Qmult_integral in H. tauto. }
  split; [exact Hval|].
  intros Hev. etransitivity; [exact Hval|]. cbn [res_eq].
  apply Nat.even_spec in Hev. destruct Hev as [k Hk]. rewrite Hk in *.
  replace (2 * k / 2)%nat with k by (rewrite Nat.mul_comm, Nat.div_mul; lia).
  assert (H2 : of_nat (2 * k) == 2 * of_nat k).
  { unfold of_nat. rewrite Nat2Z.inj_mul, inject_Z_mult. reflexivity. }
  rewrite H2 in *. field. intros H. apply Hn. rewrite H. ring.
Qed.

Lemma pv50_equal_areas_witness : calculate_pv50 [3; 3; 3; 3] =?= Some 50.
Proof.
  apply (pv50_equal_areas 3 [3; 3; 3; 3]).
  - discriminate.
  - discriminate.
  - repeat constructor; reflexivity.
  - reflexivity.
Defined.

Lemma calculate_pv50_bounds (areas : list Q) :
  Forall (Qle 0) areas -> 0 < np_sum areas ->
  exists p, calculate_pv50 areas = Some p /\ 0 <= p <= 50 /\
            (length areas = 1%nat -> p == 0).
Proof.
  intros Hpos Htot.
  pose proof (sort_areas_perm areas) as Hperm.
  pose proof (sort_areas_length areas) as Hlen.
  pose proof (sort_areas_sorted areas) as Hsorted.
  unfold calculate_pv50. set (a := sort_areas areas) in *.
  assert (Hall : Forall (Qle 0) a) by (eapply Permutation_Forall; eauto).
  assert (Hs : 0 < np_sum a) by (now rewrite <- (np_sum_perm _ _ Hperm)).
  assert (Hdiv : (length a / 2 + length a / 2 <= length a)%nat).
  { pose proof (Nat.Div0.mul_div_le (length a) 2). lia. }
  pose proof (prefix_le_rest a (length a / 2) Hsorted Hall Hdiv) as Hhalf.
  pose proof (np_sum_nonneg _ (Forall_firstn _ (length a / 2) _ Hall)) as Hlow.
  assert (Hsplit : np_sum a ==
                   np_sum (firstn (length a / 2) a) + np_sum (skipn (length a / 2) a)).
  { rewrite <- np_sum_app, firstn_skipn. reflexivity. }
  assert (Hone : length areas = 1%nat -> np_sum (firstn (length a / 2) a) == 0).
  { intros H1. rewrite Hlen, H1. reflexivity. }
  set (sum_smallest_50 := np_sum (firstn (length a / 2) a)) in *.
  set (rest := np_sum (skipn (length a / 2) a)) in *.
  set (total_sum := np_sum a) in *.
  assert (Hnz : ~ total_sum == 0) by (apply Qnot_eq_sym, Qlt_not_eq, Hs).
  rewrite (fdiv_some sum_smallest_50 total_sum Hnz). simpl.
  eexists. split; [reflexivity|].
  assert (Hq : sum_smallest_50 / total_sum <= 1 # 2).
  { apply Qle_shift_div_r; [exact Hs|]. lra. }
  assert (Hq0 : 0 <= sum_smallest_50 / total_sum).
  { apply Qle_shift_div_l; [exact Hs|]. lra. }
  split; [lra|]. intros H1. rewrite (Hone H1). unfold Qdiv. ring.
Qed.

(** X7. For non-negative areas with a positive total (zero areas allowed)
    PV50 lies between 0 and 50, and it is 0 when there is a single area:
    the smaller half of one detection is empty. *)
Theorem pv50_between_0_and_50 (areas : list Q) :
  Forall (Qle 0) areas -> 0 < np_sum areas ->
  exists p, calculate_pv50 areas = Some p /\ 0 <= p <= 50 /\
            (length areas = 1%nat -> p == 0).
Proof. apply calculate_pv50_bounds. Qed.

Lemma pv50_between_0_and_50_witness :
  exists p, calculate_pv50 [7] = Some p /\ 0 <= p <= 50 /\
            (length [7] = 1%nat -> p == 0).
Proof.
  apply (pv50_between_0_and_50 [7]).
  - repeat constructor; discriminate.
  - reflexivity.
Defined.

End ExactMore.

(** ** Further properties of the coverage estimate *)

Module RasterMore.

Import Raster RasterFacts.
Open Scope Z_scope.

(** On an unsigned sample type the two wrapped additions of line 113 are
    one reduction of the true band total. *)
Lemma band_sum_unsigned (w : Z) (p : pixel) :
  0 < w ->
  band_sum (UInt w) p = let '(b0, b1, b2) := p in (b0 + b1 + b2) mod 2 ^ w.
Proof.
  intros Hw. destruct p as [[b0 b1] b2]. unfold band_sum, wrap.
  apply Z.add_mod_idemp_l. pose proof (Z.pow_pos_nonneg 2 w). lia.
Qed.

Lemma filter_length_mono {A : Type} (f g : A -> bool) (l : list A) :
  (forall x, In x l -> f x = true -> g x = true) ->
  (length (filter f l) <= length (filter g l))%nat.
Proof.
  induction l as [|x t IH]; intros H; simpl; [lia|].
  assert (IH' : (length (filter f t) <= length (filter g t))%nat).
  { apply IH. intros y Hy. apply H. now right. }
  destruct (f x) eqn:Ef.
  - rewrite (H x (or_introl eq_refl) Ef). simpl. lia.
  - destruct (g x); simpl; lia.
Qed.

(** X8. On a raster of an unsigned sample type a pixel is counted by line
    113 exactly when its band total is not a multiple of 2^bits; with
    non-negative samples the count never exceeds the number of pixels whose
    band total is positive, so the coverage is never overestimated. *)
Theorem unsigned_coverage_drops_multiples (w : Z) (img : image) (gsd : Q) :
  0 < w ->
  valid_count (UInt w) img =
  Z.of_nat (length (filter (fun p => let '(b0, b1, b2) := p in
                                     negb ((b0 + b1 + b2) mod 2 ^ w =? 0))
                           (concat img))) /\
  (Forall (fun p => let '(b0, b1, b2) := p in 0 <= b0 /\ 0 <= b1 /\ 0 <= b2)
          (concat img) ->
   valid_count (UInt w) img <= spec_valid_count img /\
   (total_area_ha (UInt w) img gsd <= spec_total_area_ha img gsd)%Q).
Proof.
  intros Hw. assert (Hm : 0 < 2 ^ w) by (apply Z.pow_pos_nonneg; lia).
  split.
  - rewrite valid_count_filter. f_equal. f_equal. apply filter_ext.
    intros p. rewrite (band_sum_unsigned w p Hw). destruct p as [[b0 b1] b2].
    pose proof (Z.mod_pos_bound (b0 + b1 + b2) (2 ^ w) Hm).
    destruct (Z.eqb_spec ((b0 + b1 + b2) mod 2 ^ w) 0) as [E|E]; simpl.
    + rewrite E. reflexivity.
    + apply Z.ltb_lt. lia.
  - intros Hnn.
    assert (Hle : valid_count (UInt w) img <= spec_valid_count img).
    { rewrite valid_count_filter. unfold spec_valid_count.
      apply inj_le. apply filter_length_mono. intros p Hp Hv.
      rewrite Forall_forall in Hnn. specialize (Hnn p Hp).
      rewrite (band_sum_unsigned w p Hw) in Hv. destruct p as [[b0 b1] b2].
      unfold spec_valid. apply Z.ltb_lt. apply Z.ltb_lt in Hv.
      destruct (Z.eq_dec (b0 + b1 + b2) 0) as [E|E]; [|lia].
      rewrite E, Z.mod_0_l in Hv; lia. }
    split; [exact Hle|].
    unfold total_area_ha, spec_total_area_ha.
    setoid_replace (gsd ^ 2)%Q with (gsd * gsd)%Q by (simpl; ring).
    apply Qmult_le_compat_r; [|discriminate].
    apply Qmult_le_compat_r; [now rewrite <- Zle_Qle|]. nra.
Qed.

Lemma unsigned_coverage_drops_multiples_witness :
  valid_count uint8 [[(255, 1, 0); (255, 255, 255)]] = 1 /\
  valid_count uint8 [[(255, 1, 0); (255, 255, 255)]]
  <= spec_valid_count [[(255, 1, 0); (255, 255, 255)]].
Proof.
  destruct (unsigned_coverage_drops_multiples 8
              [[(255, 1, 0); (255, 255, 255)]] 1) as [Hc Hle]; [lia|].
  unfold uint8. split.
  - rewrite Hc. reflexivity.
  - apply Hle. repeat constructor; lia.
Defined.

(** X9. Whatever the sample type, the count of line 113 lies between 0 and
    the number of pixels, so the coverage lies between 0 and the footprint
    of the whole raster, pixels * GSD^2 / 10000. *)
Theorem coverage_within_footprint (dt : dtype) (img : image) (gsd : Q) :
  0 <= valid_count dt img <= Z.of_nat (length (concat img)) /\
  (0 <= total_area_ha dt img gsd)%Q /\
  (total_area_ha dt img gsd
   <= inject_Z (Z.of_nat (length (concat img))) * (gsd * gsd) / 10000)%Q.
Proof.
  assert (Hc : 0 <= valid_count dt img <= Z.of_nat (length (concat img))).
  { rewrite valid_count_filter. split; [lia|]. apply inj_le, List.filter_length_le. }
  split; [exact Hc|]. unfold total_area_ha. split.
  - apply Qle_shift_div_l; [reflexivity|].
    assert (H0 : (0 <= inject_Z (valid_count dt img))%Q)
      by (change 0%Q with (inject_Z 0); rewrite <- Zle_Qle; lia).
    nra.
  - apply Qmult_le_compat_r; [|discriminate].
    apply Qmult_le_compat_r; [rewrite <- Zle_Qle; lia|nra].
Qed.

End RasterMore.

(** ** Further properties of the pipeline *)

Module PipelineMore.

Import Exact Geometry Pipeline Spec Aux ExactFacts ExactMore PipelineFacts.
Open Scope Q_scope.

Lemma Qsquare_nonneg (a : Q) : 0 <= a * a.
Proof.
  destruct (Qlt_le_dec a 0) as [H|H].
  - setoid_replace (a * a) with ((- a) * (- a)) by ring.
    apply Qmult_le_0_compat; lra.
  - now apply Qmult_le_0_compat.
Qed.

Lemma sum_squares_nonneg (m : Q) (l : list Q) :
  0 <= np_sum (map (fun x => (x - m) * (x - m)) l).
Proof.
  apply np_sum_nonneg. apply Forall_forall. intros q Hq.
  apply in_map_iff in Hq. destruct Hq as (x & <- & _).
  apply Qsquare_nonneg.
Qed.

Lemma sum_squares_zero (m : Q) (l : list Q) :
  np_sum (map (fun x => (x - m) * (x - m)) l) == 0 -> Forall (Qeq m) l.
Proof.
  induction l as [|x t IH]; intros H; [constructor|].
  cbn [map] in H. rewrite np_sum_cons in H.
  pose proof (sum_squares_nonneg m t) as Ht.
  pose proof (Qsquare_nonneg (x - m)) as Hx0.
  assert (Hx : (x - m) * (x - m) == 0) by (apply Qle_antisym; lra).
  constructor.
  - apply Qmult_integral in Hx. destruct Hx; apply Qle_antisym; lra.
  - apply IH. apply Qle_antisym; [lra|exact Ht].
Qed.

Lemma sum_squares_const (m c : Q) (l : list Q) :
  m == c -> Forall (Qeq c) l -> np_sum (map (fun x => (x - m) * (x - m)) l) == 0.
Proof.
  intros Hm. induction 1 as [|x t Hx _ IH].
  - reflexivity.
  - cbn [map]. rewrite np_sum_cons, IH, <- Hx, Hm. ring.
Qed.

(** X12. With two or more detections [desvio_padrao] is the square root of
    a radicand that is never negative, and the radicand is 0 exactly when
    all areas are equal. *)
Theorem desvio_padrao_radicand (sqrt : Q -> Q) (areas : list Q) :
  (2 <= length areas)%nat ->
  exists v, calc_desvio_padrao sqrt areas = Some (sqrt v) /\
            0 <= v /\
            (v == 0 <-> exists c, Forall (Qeq c) areas).
Proof.
  intros Hn. unfold calc_desvio_padrao.
  destruct (Nat.ltb_spec 1 (length areas)) as [H|H]; [|lia].
  unfold series_std, series_var, series_mean.
  assert (Hn1 : 2 <= of_nat (length areas)).
  { unfold of_nat. change 2 with (inject_Z 2). rewrite <- Zle_Qle. lia. }
  fold (of_nat (length areas)).
  rewrite (fdiv_some (np_sum areas) (of_nat (length areas))) by lra.
  assert (Hd : inject_Z (Z.of_nat (length areas) - 1) == of_nat (length areas) - 1).
  { unfold of_nat, Z.sub. rewrite inject_Z_plus, inject_Z_opp. reflexivity. }
  rewrite fdiv_some by (rewrite Hd; lra).
  set (m := np_sum areas / of_nat (length areas)).
  pose proof (sum_squares_nonneg m areas) as Hsq.
  set (sq := np_sum (map (fun x => (x - m) * (x - m)) areas)) in *.
  eexists. split; [reflexivity|]. rewrite Hd. split.
  - apply Qle_shift_div_l; lra.
  - split.
    + intros Hz. exists m. apply sum_squares_zero. fold sq.
      assert (E : sq == sq / (of_nat (length areas) - 1) * (of_nat (length areas) - 1))
        by (field; lra).
      rewrite E, Hz. ring.
    + intros [c Hc].
      assert (Hm : m == c).
      { unfold m. rewrite (sum_eq_const c areas Hc). field. lra. }
      assert (Hz : sq == 0) by (apply (sum_squares_const m c areas Hm Hc)).
      rewrite Hz. unfold Qdiv. ring.
Qed.

Lemma desvio_padrao_radicand_witness :
  exists v, calc_desvio_padrao sqrt_of_square [2; 2; 2] = Some (sqrt_of_square v) /\
            0 <= v /\ (v == 0 <-> exists c, Forall (Qeq c) [2; 2; 2]).
Proof. apply (desvio_padrao_radicand sqrt_of_square [2; 2; 2]). simpl. lia. Defined.

Section Collaborators.

Variable estimate_utm_crs : list polygon -> option crs.
Variable transform_point : crs -> point -> point.
Variable sqrt : Q -> Q.

(** The run of [main] in the two cases of the UTM estimate. *)
Lemma run_main_cases (dt : Raster.dtype) (img : Raster.image) (transform : Affine)
      (detections : list Detection) (gsd : Q) :
  let gdf := vectorize transform detections in
  let n := length detections in
  run (main estimate_utm_crs transform_point sqrt dt img transform detections gsd) =
  match estimate_utm_crs (map geometry gdf) with
  | None => (Raised, [EstimateUtmCrs n])
  | Some utm =>
      let out := map (measured transform_point utm) (kept transform_point utm gdf) in
      let total := Z.of_nat (length out) in
      let ha := Raster.total_area_ha dt img gsd in
      (Ok (out, mkMetrics total ha (calc_detections_per_ha total ha)
                          (calc_desvio_padrao sqrt (map area out))
                          (calculate_gini (map area out))
                          (calculate_pv50 (map area out))),
       [EstimateUtmCrs n; ToCrs utm n; GeometryArea n; GeometryArea n])
  end.
Proof.
  intros gdf n. rewrite run_main, run_area_normalizer. fold gdf.
  assert (Hn : length gdf = n) by (unfold gdf, vectorize; apply length_map).
  rewrite Hn. destruct (estimate_utm_crs (map geometry gdf)); reflexivity.
Qed.

Lemma survivors_areas (utm : crs) (gdf : list GeoDetection) :
  Forall (Qlt 1) (map area (map (measured transform_point utm)
                                (kept transform_point utm gdf))).
Proof.
  rewrite map_map. apply Forall_forall. intros q Hq.
  apply in_map_iff in Hq. destruct Hq as (r & <- & Hr).
  apply kept_iff in Hr. cbn [measured area]. tauto.
Qed.


(** X15. The record of [main] is degenerate exactly when nothing survives:
    with no surviving row gini and pv50 have no finite value, desvio_padrao
    is 0 and detections_per_ha is 0; with at least one surviving row gini
    is a number in [0, 1) and pv50 a number in [0, 50] (exact
    arithmetic). *)
Theorem main_degenerate_metrics
        (dt : Raster.dtype) (img : Raster.image) (transform : Affine)
        (detections : list Detection) (gsd : Q) (utm : crs) :
  estimate_utm_crs (map geometry (vectorize transform detections)) = Some utm ->
  exists out m log,
    run (main estimate_utm_crs transform_point sqrt dt img transform detections gsd)
    = (Ok (out, m), log) /\
    (total_detections m = 0%Z ->
     gini m = None /\ pv50 m = None /\ desvio_padrao m = Some 0 /\
     detections_per_ha m =?= Some 0) /\
    ((0 < total_detections m)%Z ->
     exists g p, gini m = Some g /\ 0 <= g < 1 /\
                 pv50 m = Some p /\ 0 <= p <= 50).
Proof.
  intros Hutm. do 3 eexists. split.
  - rewrite run_main_cases. cbv zeta. rewrite Hutm. reflexivity.
  - cbn [total_detections gini pv50 desvio_padrao detections_per_ha].
    pose proof (survivors_areas utm (vectorize transform detections)) as Hall.
    set (out := map (measured transform_point utm)
                    (kept transform_point utm (vectorize transform detections))) in *.
    split.
    + intros H0. assert (Hout : out = []) by (destruct out; [reflexivity|discriminate]).
      rewrite Hout. cbn [map length]. repeat split.
      unfold calc_detections_per_ha.
      destruct (Qlt_bool 0 (Raster.total_area_ha dt img gsd)) eqn:E;
        [|reflexivity].
      apply Qlt_bool_iff in E. rewrite fdiv_some by lra.
      simpl. unfold Qdiv. ring.
    + intros Hpos.
      assert (Hne : map area out <> []) by (destruct out; [discriminate|discriminate]).
      assert (Hnn : Forall (Qle 0) (map area out)).
      { eapply Forall_impl; [|exact Hall]. intros q Hq. lra. }
      assert (Hsum : 0 < np_sum (map area out)).
      { destruct (map area out) as [|x t]; [congruence|].
        rewrite np_sum_cons. inversion Hall as [|? ? Hx _]; subst.
        inversion Hnn as [|? ? _ Ht0]; subst.
        pose proof (np_sum_nonneg t Ht0). lra. }
      destruct (calculate_gini_bounds _ Hne Hnn Hsum) as (g & Hg & Hg0 & _ & Hg1).
      destruct (calculate_pv50_bounds _ Hnn Hsum) as (p & Hp & Hp50 & _).
      exists g, p. auto.
Qed.

End Collaborators.


Lemma main_degenerate_metrics_witness :
  exists out m log,
    run (main utm_or_raise same_point sqrt_of_square Raster.uint8
              [[(255, 255, 255)%Z]] north_up
              [mkDetection (0, 0, 1, 1) 0 (8 # 10)] 100)
    = (Ok (out, m), log) /\
    total_detections m = 0%Z /\ gini m = None /\ pv50 m = None.
Proof.
  destruct (main_degenerate_metrics utm_or_raise same_point sqrt_of_square
              Raster.uint8 [[(255, 255, 255)%Z]] north_up
              [mkDetection (0, 0, 1, 1) 0 (8 # 10)] 100 32722%Z eq_refl)
    as (out & m & log & Hrun & Hzero & _).
  assert (H0 : total_detections m = 0%Z).
  { rewrite run_main_cases in Hrun. cbv zeta in Hrun.
    injection Hrun as _ <- _. reflexivity. }
  exists out, m, log. split; [exact Hrun|]. split; [exact H0|].
  destruct (Hzero H0) as (Hg & Hp & _). auto.
Defined.

End PipelineMore.

(** ** The command line *)

Module CliFacts.

Import Geometry Pipeline Aux Cli.
Import String Ascii.
Local Open Scope string_scope.

Lemma lower_app (s t : string) : lower (s ++ t) = lower s ++ lower t.
Proof.
  induction s as [|c s IH]; simpl; [reflexivity|now rewrite IH].
Qed.

(** A lower-cased string splits where its source splits. *)
Lemma lower_split (s a b : string) :
  lower s = a ++ b ->
  exists s1 s2, s = s1 ++ s2 /\ lower s1 = a /\ lower s2 = b.
Proof.
  revert s. induction a as [|c a IH]; intros s H.
  - exists "", s. auto.
  - destruct s as [|c' s']; [discriminate|].
    simpl in H. injection H as Hc Hs.
    destruct (IH s' Hs) as (s1 & s2 & -> & H1 & H2).
    exists (String c' s1), s2. simpl. rewrite H1, Hc. auto.
Qed.

Lemma endswith_iff (s suffix : string) :
  endswith s suffix = true <-> exists stem, s = stem ++ suffix.
Proof.
  induction s as [|c s IH]; cbn [endswith].
  - rewrite orb_false_r, String.eqb_eq. split.
    + intros ->. now exists "".
    + intros [stem H]. destruct stem; [exact H|discriminate].
  - rewrite orb_true_iff, String.eqb_eq, IH. split.
    + intros [->|[stem ->]]; [now exists ""|now exists (String c stem)].
    + intros [[|c' stem] H]; [now left|].
      right. simpl in H. injection H as _ ->. now exists stem.
Qed.

(** The format check of line 40, through [lower]: a path passes when it
    splits into a stem and an extension whose lower-case form is one of
    the two suffixes. *)
Lemma supported_format_iff (path : string) :
  supported_format path = true <->
  exists stem ext, path = stem ++ ext /\ (lower ext = ".tif" \/ lower ext = ".tiff").
Proof.
  unfold supported_format. rewrite orb_true_iff, !endswith_iff. split.
  - intros [[pre H]|[pre H]]; apply lower_split in H;
      destruct H as (s1 & s2 & -> & _ & H2); exists s1, s2; auto.
  - intros (stem & ext & -> & [H|H]); rewrite lower_app, H;
      [left|right]; now exists (lower stem).
Qed.

(** The characters that [lower_ascii] sends to a given character of the
    suffixes: the character itself and, for a letter, its capital. *)
Ltac ascii_cases c :=
  destruct c as [[] [] [] [] [] [] [] []];
  (split;
   [ intros H; vm_compute in H;
     first [ discriminate H | left; reflexivity | right; reflexivity ]
   | intros [H|H]; first [ discriminate H | reflexivity ] ]).

Lemma lower_ascii_dot (c : ascii) :
  lower_ascii c = "."%char <-> c = "."%char.
Proof.
  destruct c as [[] [] [] [] [] [] [] []];
    split; intros H; first [ reflexivity | vm_compute in H; discriminate H ].
Qed.

Lemma lower_ascii_t (c : ascii) :
  lower_ascii c = "t"%char <-> c = "t"%char \/ c = "T"%char.
Proof. ascii_cases c. Qed.

Lemma lower_ascii_i (c : ascii) :
  lower_ascii c = "i"%char <-> c = "i"%char \/ c = "I"%char.
Proof. ascii_cases c. Qed.

Lemma lower_ascii_f (c : ascii) :
  lower_ascii c = "f"%char <-> c = "f"%char \/ c = "F"%char.
Proof. ascii_cases c. Qed.

(** The extensions whose lower-case form is ".tif" or ".tiff", character
    by character. *)
Lemma lower_extension (ext : string) :
  lower ext = ".tif" \/ lower ext = ".tiff" <->
  exists c1 c2 c3 rest,
    ext = String "." (String c1 (String c2 (String c3 rest))) /\
    (c1 = "t"%char \/ c1 = "T"%char) /\
    (c2 = "i"%char \/ c2 = "I"%char) /\
    (c3 = "f"%char \/ c3 = "F"%char) /\
    (rest = "" \/ rest = "f" \/ rest = "F").
Proof.
  split.
  - intros H.
    destruct ext as [|c0 [|c1 [|c2 [|c3 rest]]]];
      try (destruct H as [H|H]; discriminate H).
    assert (H' : lower_ascii c0 = "."%char /\ lower_ascii c1 = "t"%char /\
                 lower_ascii c2 = "i"%char /\ lower_ascii c3 = "f"%char /\
                 (lower rest = "" \/ lower rest = "f")).
    { destruct H as [H|H]; cbn [lower] in H;
        injection H as H0 H1 H2 H3 H4; repeat split; auto. }
    destruct H' as (H0 & H1 & H2 & H3 & H4).
    apply (proj1 (lower_ascii_dot c0)) in H0. subst c0.
    exists c1, c2, c3, rest. split; [reflexivity|].
    split; [exact (proj1 (lower_ascii_t c1) H1)|].
    split; [exact (proj1 (lower_ascii_i c2) H2)|].
    split; [exact (proj1 (lower_ascii_f c3) H3)|].
    destruct rest as [|c4 [|c5 rest]].
    + now left.
    + right. destruct H4 as [H4|H4]; [discriminate H4|].
      cbn [lower] in H4. injection H4 as H4.
      apply (proj1 (lower_ascii_f c4)) in H4. destruct H4 as [->| ->]; auto.
    + destruct H4 as [H4|H4]; discriminate H4.
  - intros (c1 & c2 & c3 & rest & -> & [->| ->] & [->| ->] & [->| ->]
            & [->|[->| ->]]); vm_compute; auto.
Qed.

(** X17. The format check of line 40 accepts exactly the paths that end
    with a dot, a letter t, a letter i, a letter f and possibly one more
    letter f, each in either case: ".tif", ".TIF", ".TiFf" and the like.
    Nothing is asked of what comes before the dot, and a path in which
    something follows the extension is refused. *)
Theorem supported_format_any_case :
  (forall path : string,
      supported_format path = true <->
      exists stem c1 c2 c3 rest,
        path = stem ++ String "." (String c1 (String c2 (String c3 rest))) /\
        (c1 = "t"%char \/ c1 = "T"%char) /\
        (c2 = "i"%char \/ c2 = "I"%char) /\
        (c3 = "f"%char \/ c3 = "F"%char) /\
        (rest = "" \/ rest = "f" \/ rest = "F")) /\
  supported_format "field.tif" = true /\
  supported_format "field.TIF" = true /\
  supported_format "ortho/field.TiFf" = true /\
  supported_format ".tiff" = true /\
  supported_format "field.tif.bak" = false /\
  supported_format "field.tifff" = false /\
  supported_format "field.jpg" = false /\
  supported_format "tif" = false.
Proof.
  split; [|repeat split; reflexivity].
  intros path. rewrite supported_format_iff. split.
  - intros (stem & ext & -> & H). apply lower_extension in H.
    destruct H as (c1 & c2 & c3 & rest & -> & H). exists stem, c1, c2, c3, rest.
    split; [reflexivity|exact H].
  - intros (stem & c1 & c2 & c3 & rest & -> & H).
    exists stem, (String "." (String c1 (String c2 (String c3 rest)))).
    split; [reflexivity|]. apply lower_extension.
    exists c1, c2, c3, rest. split; [reflexivity|exact H].
Qed.

Lemma supported_format_any_case_witness :
  supported_format ("plots/area 7" ++ ".TIf") = true.
Proof.
  apply (proj1 supported_format_any_case).
  exists "plots/area 7", "T"%char, "I"%char, "f"%char, "".
  repeat split; auto.
Defined.

Section Collaborators.

Variable isfile : string -> bool.
Variable Model : Type.
Variable load_model : string -> option Model.
Variable predict : Model -> Raster.image -> Q -> option (list Detection).
Variable read_raster : string -> option (Raster.dtype * Raster.image * Affine).
Variable estimate_utm_crs : list polygon -> option crs.
Variable transform_point : crs -> point -> point.
Variable sqrt : Q -> Q.
Variable publish_point : point -> point.

Lemma validate_none_iff (args : Args) :
  validate isfile args = None <->
  isfile (source args) = true /\ supported_format (source args) = true /\
  isfile (model args) = true /\ (0 <= conf args <= 1)%Q /\ (0 < gsd args)%Q.
Proof.
  unfold validate.
  destruct (isfile (source args)); simpl; [|split; [discriminate|intros [H _]; discriminate]].
  destruct (supported_format (source args)); simpl;
    [|split; [discriminate|intros (_ & H & _); discriminate]].
  destruct (isfile (model args)); simpl;
    [|split; [discriminate|intros (_ & _ & H & _); discriminate]].
  destruct (Qle_bool 0 (conf args)) eqn:E0; simpl.
  - destruct (Qle_bool (conf args) 1) eqn:E1; simpl.
    + apply Qle_bool_iff in E0. apply Qle_bool_iff in E1.
      destruct (Qlt_bool 0 (gsd args)) eqn:Eg; simpl.
      * apply PipelineFacts.Qlt_bool_iff in Eg. tauto.
      * split; [discriminate|]. intros (_ & _ & _ & _ & H).
        apply PipelineFacts.Qlt_bool_iff in H. congruence.
    + split; [discriminate|]. intros (_ & _ & _ & [_ H] & _).
      apply Qle_bool_iff in H. congruence.
  - split; [discriminate|]. intros (_ & _ & _ & [H _] & _).
    apply Qle_bool_iff in H. congruence.
Qed.

(** The message of a rejection names a check that failed. *)
Lemma validate_some_sound (args : Args) (r : rejection) :
  validate isfile args = Some r ->
  match r with
  | NotAFile path => path = source args /\ isfile (source args) = false
  | UnsupportedFormat path =>
      path = source args /\ supported_format (source args) = false
  | ModelMissing path => path = model args /\ isfile (model args) = false
  | ConfidenceOutOfRange => ~ (0 <= conf args <= 1)%Q
  | GsdNotPositive => ~ (0 < gsd args)%Q
  end.
Proof.
  unfold validate.
  destruct (isfile (source args)) eqn:E1; simpl; [|intros [= <-]; auto].
  destruct (supported_format (source args)) eqn:E2; simpl; [|intros [= <-]; auto].
  destruct (isfile (model args)) eqn:E3; simpl; [|intros [= <-]; auto].
  destruct (Qle_bool 0 (conf args) && Qle_bool (conf args) 1) eqn:E4; simpl.
  - destruct (Qlt_bool 0 (gsd args)) eqn:E5; simpl; [discriminate|].
    intros [= <-]. intros H. apply PipelineFacts.Qlt_bool_iff in H. congruence.
  - intros [= <-]. intros [H0 H1].
    apply Qle_bool_iff in H0. apply Qle_bool_iff in H1.
    rewrite H0, H1 in E4. discriminate.
Qed.

(** X18. [main] goes on to load the model exactly when the source is a
    file with a supported extension, the model is a file, the confidence
    lies in [0, 1] and the GSD is positive.  Otherwise it prints one
    message, which names a check that really failed, and returns: no
    collaborator is called and nothing is written. *)
Theorem main_cli_gate (args : Args) :
  let accepted :=
    isfile (source args) = true /\ supported_format (source args) = true /\
    isfile (model args) = true /\ (0 <= conf args <= 1)%Q /\ (0 < gsd args)%Q in
  let result := main_cli isfile Model load_model predict read_raster
                         estimate_utm_crs transform_point sqrt publish_point args in
  (accepted ->
   exists rest, fst result = LoadModel (model args) :: rest /\
                snd result <> Returned) /\
  (~ accepted ->
   exists r, result = ([Print r], Returned) /\
             match r with
             | NotAFile path => path = source args /\ isfile (source args) = false
             | UnsupportedFormat path =>
                 path = source args /\ supported_format (source args) = false
             | ModelMissing path => path = model args /\ isfile (model args) = false
             | ConfidenceOutOfRange => ~ (0 <= conf args <= 1)%Q
             | GsdNotPositive => ~ (0 < gsd args)%Q
             end).
Proof.
  cbv zeta. unfold main_cli. split.
  - intros Hacc. apply validate_none_iff in Hacc. rewrite Hacc.
    destruct (load_model (model args)) as [yolo|];
      [|eexists; split; [reflexivity|discriminate]].
    destruct (read_raster (source args)) as [[[dt img] transform]|];
      [|eexists; split; [reflexivity|discriminate]].
    destruct (predict yolo img (conf args)) as [detections|];
      [|eexists; split; [reflexivity|discriminate]].
    destruct (run _) as [[[gdf metrics]|] log];
      eexists; (split; [reflexivity|discriminate]).
  - intros Hrej. destruct (validate isfile args) as [r|] eqn:E.
    + exists r. split; [reflexivity|]. now apply validate_some_sound.
    + apply validate_none_iff in E. contradiction.
Qed.

(** X19. The output directory is touched only on the last lines of a run
    that finishes: the directory is made, then detections.geojson and
    metrics.json are written, the vector file with exactly
    total_detections rows, each with an area greater than 1.  A run that
    returns early, or in which the detector, the raster reader or the UTM
    estimate raises, writes nothing. *)
Theorem main_cli_outputs (args : Args) :
  let result := main_cli isfile Model load_model predict read_raster
                         estimate_utm_crs transform_point sqrt publish_point args in
  (snd result = Finished ->
   exists before rows m,
     fst result = (before ++ [MakeDir (output args); PublishCrs (List.length rows);
                              WriteVector (output args) rows;
                              WriteMetrics (output args) m])%list /\
     Forall (fun e => writes e = false) before /\
     total_detections m = Z.of_nat (List.length rows) /\
     Forall (fun d => (1 < area d)%Q) rows) /\
  (snd result <> Finished -> Forall (fun e => writes e = false) (fst result)).
Proof.
  cbv zeta. unfold main_cli.
  destruct (validate isfile args) as [r|];
    [split; [discriminate|intros _; repeat constructor]|].
  destruct (load_model (model args)) as [yolo|];
    [|split; [discriminate|intros _; repeat constructor]].
  destruct (read_raster (source args)) as [[[dt img] transform]|];
    [|split; [discriminate|intros _; repeat constructor]].
  destruct (predict yolo img (conf args)) as [detections|];
    [|split; [discriminate|intros _; repeat constructor]].
  rewrite PipelineMore.run_main_cases. cbv zeta.
  destruct (estimate_utm_crs (map geometry (vectorize transform detections)))
    as [utm|]; cbn [fst snd].
  - split; [|congruence]. intros _.
    set (gdf := map (measured transform_point utm)
                    (kept transform_point utm (vectorize transform detections))).
    eexists _, (map (published publish_point) gdf), _.
    split; [rewrite app_assoc, length_map; reflexivity|].
    split; [repeat constructor|]. split.
    + cbn [total_detections]. now rewrite length_map.
    + rewrite Forall_map. cbn [published area].
      pose proof (PipelineMore.survivors_areas transform_point utm
                    (vectorize transform detections)) as H.
      rewrite Forall_map in H. exact H.
  - split; [discriminate|]. intros _. repeat constructor.
Qed.

End Collaborators.

Lemma main_cli_gate_witness :
  exists rest,
    fst (main_cli (fun _ => true) unit (fun _ => Some tt)
                  (fun _ _ _ => Some two_boxes)
                  (fun _ => Some (Raster.uint8, [[(255, 255, 255)%Z]], north_up))
                  utm_or_raise same_point sqrt_of_square (fun p => p)
                  (mkArgs "field.TIF" "results" "best.pt" (1 # 2) (1 # 20)))
    = LoadModel "best.pt" :: rest.
Proof.
  destruct (main_cli_gate (fun _ => true) unit (fun _ => Some tt)
              (fun _ _ _ => Some two_boxes)
              (fun _ => Some (Raster.uint8, [[(255, 255, 255)%Z]], north_up))
              utm_or_raise same_point sqrt_of_square (fun p => p)
              (mkArgs "field.TIF" "results" "best.pt" (1 # 2) (1 # 20)))
    as [Hacc _].
  destruct Hacc as (rest & Hrest & _).
  - repeat split; try reflexivity; discriminate.
  - exists rest. exact Hrest.
Defined.

Lemma main_cli_outputs_witness :
  exists before rows m,
    fst (main_cli (fun _ => true) unit (fun _ => Some tt)
                  (fun _ _ _ => Some two_boxes)
                  (fun _ => Some (Raster.uint8, [[(255, 255, 255)%Z]], north_up))
                  utm_or_raise same_point sqrt_of_square (fun p => p)
                  (mkArgs "field.TIF" "results" "best.pt" (1 # 2) (1 # 20)))
    = (before ++ [MakeDir "results"; PublishCrs (List.length rows);
                  WriteVector "results" rows; WriteMetrics "results" m])%list /\
    total_detections m = Z.of_nat (List.length rows).
Proof.
  destruct (main_cli_outputs (fun _ => true) unit (fun _ => Some tt)
              (fun _ _ _ => Some two_boxes)
              (fun _ => Some (Raster.uint8, [[(255, 255, 255)%Z]], north_up))
              utm_or_raise same_point sqrt_of_square (fun p => p)
              (mkArgs "field.TIF" "results" "best.pt" (1 # 2) (1 # 20)))
    as [Hfin _].
  destruct Hfin as (before & rows & m & Htrace & _ & Hn & _); [reflexivity|].
  exists before, rows, m. split; [exact Htrace|exact Hn].
Defined.

End CliFacts.
